(** * Reversible migrations: the journal and the undo pass

    A model of the migration scripts (migration.js, undo.js and their
    first generation) and the properties their specification states.

    The scripts talk to a document store through the driver and to the
    disk through [fs]; both are modelled by explicit state, the [world].
    Asynchronous calls are awaited one by one in the source, so every
    function is a sequential state transformer that may throw.

    What the model takes from the surroundings of the scripts:
    - stored documents are keyed by ObjectIds, as the driver generates
      them for documents that bring no [_id] of their own; an ObjectId
      is written to JSON as the string of its hex digits and stays a
      string when the JSON is read back, a Date is written as text;
    - a write request (insertOne, updateOne, deleteOne, replaceOne) is
      served or rejected as the store decides, [connect] fails when the
      store is unreachable, [find] and the disk do not fail;
    - a journal file is kept as the object its JSON text denotes, and
      the data file as the list of documents it holds.
    Properties that depend on one of these say so in a hypothesis: a
    document without [_id], a journal file that holds a journal, a run
    that has ended with code 0. *)

From Stdlib Require Import ZArith Ascii String.
From stdpp Require Import gmap strings list fin_maps.

Open Scope string_scope.
Open Scope list_scope.
Open Scope stdpp_scope.

(** ** Values and documents *)

(** Field values as the driver sees them.  An ObjectId is kept by its
    hexadecimal rendering (24 lower-case digits).  A Date is kept by the
    string it was built from: [VDate src] is [new Date(src)], in a
    script and as the store keeps it, and its parsing is not needed
    below.  [VDateText src] is what [JSON.stringify] writes for that
    Date, the ISO string of a valid Date and [null] for an invalid one;
    it is text, no longer a Date. *)
Inductive value :=
| VNull
| VBool (b : bool)
| VNum (n : Z)
| VStr (s : string)
| VOid (hex : string)
| VDate (src : string)
| VDateText (src : string).

#[global] Instance value_eq_dec : EqDecision value.
Proof. solve_decision. Defined.

(** A JavaScript object used as a document: an optional [_id] property and
    the remaining properties. *)
Record Doc := mkDoc {
  doc_id : option value;
  doc_fields : gmap string value
}.

#[global] Instance Doc_eq_dec : EqDecision Doc.
Proof. solve_decision. Defined.

(** What [JSON.stringify] followed by [JSON.parse] makes of a value: an
    ObjectId comes back as the string of its hex digits ([toJSON] of the
    driver's ObjectId), a Date as the text [JSON.stringify] writes for
    it ([Date.prototype.toJSON]), the other values come back as
    written. *)
Definition toJSON (v : value) : value :=
  match v with
  | VOid hex => VStr hex
  | VDate src => VDateText src
  | _ => v
  end.

Definition toJSON_doc (d : Doc) : Doc :=
  {| doc_id := toJSON <$> doc_id d; doc_fields := toJSON <$> doc_fields d |}.

(** A filter [{k1: v1, ...}] and an update [{$set: {k1: v1, ...}}]. *)
Definition Filter := list (string * value).
Definition Update := list (string * value).

Definition matches (q : Filter) (fs : gmap string value) : bool :=
  forallb (fun kv => bool_decide (fs !! kv.1 = Some kv.2)) q.

Definition apply_set (u : Update) (fs : gmap string value) : gmap string value :=
  fold_left (fun acc kv => <[kv.1 := kv.2]> acc) u fs.

(** ** The journal *)

(** The strings ["insert"] and ["update"] of the [action] property, and
    ["success"], ["error"] and ["dryRun"] of the [status] property. *)
Inductive kind := insert_k | update_k.
Inductive status_t := success | error_s | dryRun_s.

#[global] Instance kind_eq_dec : EqDecision kind.
Proof. solve_decision. Defined.
#[global] Instance status_eq_dec : EqDecision status_t.
Proof. solve_decision. Defined.

(** The [previous] property of a parsed journal entry: the key may be
    missing, hold [null], or hold an object. *)
Inductive prev_field :=
| PAbsent
| PNull
| PDoc (d : Doc).

#[global] Instance prev_field_eq_dec : EqDecision prev_field.
Proof. solve_decision. Defined.

(** One entry of [actions], in the form it has in the journal file. *)
Record ActionRecord := {
  collection : string;
  action : kind;
  status : status_t;
  _id : option string;
  document : option (gmap string value);
  previous : prev_field;
  update : option Update;
  error : option string
}.

#[global] Instance ActionRecord_eq_dec : EqDecision ActionRecord.
Proof. solve_decision. Defined.

Record MigrationLog := {
  tag : string;
  createdAt : string;
  actions : list ActionRecord
}.

#[global] Instance MigrationLog_eq_dec : EqDecision MigrationLog.
Proof. solve_decision. Defined.

(** ** The world *)

(** The lines the scripts hand to the logger, by their template and the
    values interpolated in it. *)
Inductive line :=
| Starting_migration (dry : bool)
| Tag_line (t : string)
| Would_insert (c : string) (d : gmap string value)
| Inserted (c : string)
| Insert_failed (c : string) (err : string)
| Would_update (n : nat) (c : string)
| Updated (id : string) (c : string)
| Update_failed (id : string) (c : string) (err : string)
| Migration_complete
| Migration_failed (err : string)
| Starting_undo (t : string) (filter : option string)
| Deleted (id : string) (c : string)
| Restored (id : string) (c : string)
| Undo_failed (id : string) (c : string) (err : string)
| Undo_complete
| Undo_script_failed (err : string).

#[global] Instance line_eq_dec : EqDecision line.
Proof. solve_decision. Defined.

(** What a process does to its surroundings besides the store and the
    disk: connections, logger lines, lines on the error stream. *)
Inductive event :=
| Connect
| Close
| Info (l : line)
| Error (l : line)
| Stderr (msg : string).

#[global] Instance event_eq_dec : EqDecision event.
Proof. solve_decision. Defined.

(** The store holds, per collection name and ObjectId, the fields of the
    document.  [faults] is what the store answers to the coming write
    requests: [Some e] rejects the request with error [e], [None] (or an
    exhausted list) serves it.  [reachable] is whether [connect] succeeds.
    [files] is the journal directory, a file being kept as the object its
    JSON text denotes. *)
Record world := World {
  db : gmap (string * string) (gmap string value);
  faults : list (option string);
  reachable : bool;
  next_oid : nat;
  files : gmap string MigrationLog;
  migrationLog : MigrationLog;
  events : list event
}.

(** ** Sequential code that may throw *)

Inductive result (A : Type) :=
| Ok (a : A)
| Throw (e : string).
Arguments Ok {A} a.
Arguments Throw {A} e.

Definition M (A : Type) : Type := world -> result A * world.

#[global] Instance M_ret : MRet M := fun A a w => (Ok a, w).
#[global] Instance M_bind : MBind M := fun A B f m w =>
  match m w with
  | (Ok a, w') => f a w'
  | (Throw e, w') => (Throw e, w')
  end.

Definition throw {A} (e : string) : M A := fun w => (Throw e, w).

(** [try { m } catch (err) { h err }] *)
Definition try_catch {A} (m : M A) (h : string -> M A) : M A := fun w =>
  match m w with
  | (Ok a, w') => (Ok a, w')
  | (Throw e, w') => h e w'
  end.

(** [for (const x of l) { body x }] *)
Fixpoint for_of {A} (l : list A) (body : A -> M unit) : M unit :=
  match l with
  | [] => mret tt
  | x :: l' => body x ;; for_of l' body
  end.

Definition said (e : event) (w : world) : world :=
  World (db w) (faults w) (reachable w) (next_oid w) (files w)
        (migrationLog w) (events w ++ [e]).

Definition emit (e : event) : M unit := fun w => (Ok tt, said e w).

Definition set_db (f : gmap (string * string) (gmap string value) ->
                       gmap (string * string) (gmap string value)) : M unit :=
  fun w =>
  (Ok tt, World (f (db w)) (faults w) (reachable w) (next_oid w) (files w)
               (migrationLog w) (events w)).

(** ** The driver *)

Definition hex_digit (n : nat) : ascii :=
  match n with
  | 0 => "0" | 1 => "1" | 2 => "2" | 3 => "3" | 4 => "4" | 5 => "5"
  | 6 => "6" | 7 => "7" | 8 => "8" | 9 => "9" | 10 => "a" | 11 => "b"
  | 12 => "c" | 13 => "d" | 14 => "e" | _ => "f"
  end%char.

(** The last [len] hexadecimal digits of [n]. *)
Fixpoint hex_of (len n : nat) (acc : string) : string :=
  match len with
  | 0 => acc
  | S len' => hex_of len' (n / 16) (String (hex_digit (n mod 16)) acc)
  end.

(** The identifiers the driver generates when a document has none. *)
Definition fresh_oid (n : nat) : string := hex_of 24 n "".

Definition is_hex (a : ascii) : bool :=
  let n := nat_of_ascii a in
  (((48 <=? n) && (n <=? 57)) || ((97 <=? n) && (n <=? 102))
   || ((65 <=? n) && (n <=? 70)))%nat.

Definition lower_hex (a : ascii) : ascii :=
  let n := nat_of_ascii a in
  if ((65 <=? n) && (n <=? 70))%nat then ascii_of_nat (n + 32) else a.

Fixpoint string_forallb (p : ascii -> bool) (s : string) : bool :=
  match s with
  | EmptyString => true
  | String a s' => p a && string_forallb p s'
  end.

Fixpoint string_map (f : ascii -> ascii) (s : string) : string :=
  match s with
  | EmptyString => EmptyString
  | String a s' => String (f a) (string_map f s')
  end.

(** The identifier a string of 24 hexadecimal digits denotes (digits in
    either case denote the same identifier); other strings denote none. *)
Definition oid_of (s : string) : option string :=
  if (String.length s =? 24)%nat && string_forallb is_hex s
  then Some (string_map lower_hex s)
  else None.

(** [new ObjectId(x)]: a string that denotes an identifier gives it, any
    other string is refused, and [undefined] makes the driver generate an
    identifier of its own.  The result [None] stands for such a generated
    identifier, which is the identifier of no stored document. *)
Definition ObjectId (x : option string) : M (option string) :=
  match x with
  | None => mret None
  | Some s =>
      match oid_of s with
      | Some k => mret (Some k)
      | None => throw "BSONError: input must be a 24 character hex string"
      end
  end.

(** The store answers a write request: it is served, or rejected with the
    next scheduled fault. *)
Definition request : M unit := fun w =>
  match faults w with
  | [] => (Ok tt, w)
  | o :: fs =>
      let w' := World (db w) fs (reachable w) (next_oid w) (files w)
                      (migrationLog w) (events w) in
      match o with
      | None => (Ok tt, w')
      | Some e => (Throw e, w')
      end
  end.

Definition connect : M unit := fun w =>
  if reachable w
  then emit Connect w
  else (Throw "MongoServerSelectionError", w).

Definition close : M unit := emit Close.

(** [db.collection(c).find(q).toArray()]: the stored documents of [c]
    that match, each with its identifier. *)
Definition found (c : string) (q : Filter)
    (s : gmap (string * string) (gmap string value))
  : list (string * gmap string value) :=
  omap (fun e : (string * string) * gmap string value =>
          if bool_decide (e.1.1 = c) && matches q e.2
          then Some (e.1.2, e.2) else None)
       (map_to_list s).

Definition find (c : string) (q : Filter)
  : M (list (string * gmap string value)) := fun w =>
  (Ok (found c q (db w)), w).

(** The object the driver hands to the script for a stored document. *)
Definition as_object (e : string * gmap string value) : Doc :=
  mkDoc (Some (VOid e.1)) e.2.

(** [insertOne(doc)] for a document without [_id]: the driver generates
    the identifier, the store refuses a duplicate.  (A document that
    brings an [_id] of its own is stored by the driver under that
    [_id], of whatever type; the store of this model has ObjectIds for
    keys only, and what is proved of inserts outside dry run is stated
    for documents without one.) *)
Definition gen_oid : M string := fun w =>
  (Ok (fresh_oid (next_oid w)),
   World (db w) (faults w) (reachable w) (S (next_oid w)) (files w)
         (migrationLog w) (events w)).

Definition get_db : M (gmap (string * string) (gmap string value)) :=
  fun w => (Ok (db w), w).

Definition insertOne (c : string) (d : gmap string value) : M string :=
  k ← gen_oid;
  request ;;
  s ← get_db;
  match s !! (c, k) with
  | Some _ => throw "MongoServerError: E11000 duplicate key"
  | None => set_db (insert (c, k) d) ;; mret k
  end.

(** [updateOne({_id: k}, {$set: u})] *)
Definition updateOne (c k : string) (u : Update) : M unit :=
  request ;; set_db (fun s => match s !! (c, k) with
                              | Some fs => <[(c, k) := apply_set u fs]> s
                              | None => s
                              end).

(** [deleteOne({_id: key})]; deleting what is not there succeeds. *)
Definition deleteOne (c : string) (key : option string) : M unit :=
  request ;; match key with
             | Some k => set_db (base.delete (c, k))
             | None => mret tt
             end.

(** [replaceOne({_id: key}, r)]: the matched document takes the fields of
    [r].  The store refuses a replacement whose [_id] is not the matched
    document's (the field is immutable); without a match nothing
    happens, there is no upsert. *)
Definition replaceOne (c : string) (key : option string) (r : Doc) : M unit :=
  request ;;
  match key with
  | None => mret tt
  | Some k =>
      s ← get_db;
      match s !! (c, k) with
      | None => mret tt
      | Some _ =>
          if bool_decide (doc_id r = None ∨ doc_id r = Some (VOid k))
          then set_db (insert (c, k) (doc_fields r))
          else throw "MongoServerError: the (immutable) field '_id' was found to have been altered"
      end
  end.

(** The object [d] once the driver has written the identifier [k] into
    it: [insertOne] does that to the very object it is passed, when the
    object has no [_id], before it sends the request, so the caller sees
    it afterwards whatever the store has answered. *)
Definition with_id (d : gmap string value) (k : string) : gmap string value :=
  <["_id" := VOid k]> d.

Definition path_join (dir file : string) : string := dir +:+ "/" +:+ file.

(** A process ends with an exit code and leaves a world behind. *)
Definition process : Type := world -> nat * world.

(** ** migration.js *)

Section Migration.
(** [config.dryRun], [config.migrationDir] and the tag of the run. *)
Variable dryRun : bool.
Variable migrationDir : string.
Variable TAG : string.

Definition MIGRATION_FILE : string :=
  path_join migrationDir ("migration_" +:+ TAG +:+ ".json").

(** The entry is pushed on the log in memory and the whole log is
    written over the journal file ([writeFileSync], which here always
    succeeds).  Entries are built below in the form the file gives
    them. *)
Definition logAction (entry : ActionRecord) : M unit := fun w =>
  let log := {| tag := tag (migrationLog w);
                createdAt := createdAt (migrationLog w);
                actions := actions (migrationLog w) ++ [entry] |} in
  (Ok tt, World (db w) (faults w) (reachable w) (next_oid w)
                (<[MIGRATION_FILE := log]> (files w)) log (events w)).

Definition json_update (u : Update) : Update :=
  (fun kv => (kv.1, toJSON kv.2)) <$> u.

(** The entries of [insertDocument]: the source writes [_id] for a
    success and [error] for a failure, and the payload always, as the
    object is when the entry is made. *)
Definition insert_entry (collectionName : string) (doc : gmap string value)
    (st : status_t) (id err : option string) : ActionRecord :=
  {| collection := collectionName; action := insert_k; status := st;
     _id := id; document := Some (toJSON <$> doc); previous := PAbsent;
     update := None; error := err |}.

Definition insertDocument (collectionName : string)
    (doc : gmap string value) : M unit :=
  if dryRun then
    emit (Info (Would_insert collectionName doc)) ;;
    logAction (insert_entry collectionName doc dryRun_s None None)
  else fun w =>
    (* [doc] after [insertOne]: the call writes the identifier it
       generates into the object, and both entries below are made of
       the object as it is then *)
    let doc' := with_id doc (fresh_oid (next_oid w)) in
    try_catch
      (insertedId ← insertOne collectionName doc;
       emit (Info (Inserted collectionName)) ;;
       logAction (insert_entry collectionName doc' success
                               (Some insertedId) None))
      (fun err =>
       emit (Error (Insert_failed collectionName err)) ;;
       logAction (insert_entry collectionName doc' error_s None (Some err)))
      w.

Definition insertMultipleDocuments (collectionName : string)
    (docs : list (gmap string value)) : M unit :=
  for_of docs (insertDocument collectionName).

Definition dry_update_entry (collectionName : string) (u : Update)
    (doc : string * gmap string value) : ActionRecord :=
  {| collection := collectionName; action := update_k; status := dryRun_s;
     _id := Some doc.1; document := None;
     previous := PDoc (toJSON_doc (as_object doc));
     update := Some (json_update u); error := None |}.

Definition success_update_entry (collectionName : string) (u : Update)
    (doc : string * gmap string value) : ActionRecord :=
  {| collection := collectionName; action := update_k; status := success;
     _id := Some doc.1; document := None;
     previous := PDoc (toJSON_doc (as_object doc));
     update := Some (json_update u); error := None |}.

Definition error_update_entry (collectionName : string) (u : Update)
    (doc : string * gmap string value) (err : string) : ActionRecord :=
  {| collection := collectionName; action := update_k; status := error_s;
     _id := Some doc.1; document := None; previous := PAbsent;
     update := Some (json_update u); error := Some err |}.

(** The body of the loop of [updateDocuments] outside dry run. *)
Definition update_one_doc (collectionName : string) (u : Update)
    (doc : string * gmap string value) : M unit :=
  try_catch
    (updateOne collectionName doc.1 u ;;
     emit (Info (Updated doc.1 collectionName)) ;;
     logAction (success_update_entry collectionName u doc))
    (fun err =>
     emit (Error (Update_failed doc.1 collectionName err)) ;;
     logAction (error_update_entry collectionName u doc err)).

Definition updateDocuments (collectionName : string) (filter : Filter)
    (u : Update) : M unit :=
  if dryRun then
    docs ← find collectionName filter;
    emit (Info (Would_update (length docs) collectionName)) ;;
    for_of docs (fun doc => logAction (dry_update_entry collectionName u doc))
  else
    docs ← find collectionName filter;
    for_of docs (update_one_doc collectionName u).

(** The literals of [runMigration]. *)
Definition doc_y : gmap string value :=
  {[ "name" := VStr "Y1"; "createdAt" := VDate TAG ]}.
Definition filter_z : Filter := [("status", VStr "old")].
Definition update_z : Update :=
  [("status", VStr "new"); ("updatedAt", VDate TAG)].

(** [xData] is the content of the data file, the list of documents its
    JSON text holds, which the source reads once the connection is
    made.  (A data file that cannot be read, or holds no such list, and
    a [find] the store rejects end the script with code 1 at that
    point; the model has the run on readable data only.  The generation
    before this one has the same functions and inserts one literal
    document in [x] instead of the data file's.) *)
Definition runMigration (xData : list (gmap string value)) : M unit :=
  connect ;;
  emit (Info (Starting_migration dryRun)) ;;
  emit (Info (Tag_line TAG)) ;;
  insertMultipleDocuments "x" xData ;;
  insertDocument "y" doc_y ;;
  updateDocuments "z" filter_z update_z ;;
  close ;;
  emit (Info Migration_complete).

(** The script: the log starts empty under the tag, the run is
    started, and a rejection of the run ends the process with code 1. *)
Definition migration_js (now : string)
    (xData : list (gmap string value)) : process := fun w =>
  let w0 := World (db w) (faults w) (reachable w) (next_oid w) (files w)
                  {| tag := TAG; createdAt := now; actions := [] |}
                  (events w) in
  match runMigration xData w0 with
  | (Ok _, w') => (0, w')
  | (Throw err, w') => (1, said (Error (Migration_failed err)) w')
  end.
End Migration.

(** ** undo.js *)

(** JavaScript truthiness of a string that may be [undefined]. *)
Definition truthy (x : option string) : bool :=
  match x with
  | Some s => negb (bool_decide (s = ""))
  | None => false
  end.

(** [String(x)] *)
Definition String_of (x : option string) : string := default "undefined" x.

Section Undo.
Variable migrationDir : string.
(** [process.argv[2]] and [process.argv[3]] *)
Variable TAG_UNDO : option string.
Variable FILTER_ID : option string.

Definition FILE_PATH : string :=
  path_join migrationDir ("migration_" +:+ String_of TAG_UNDO +:+ ".json").

Definition candidates (acts : list ActionRecord) : list ActionRecord :=
  if truthy FILTER_ID
  then List.filter (fun a => bool_decide (Some (String_of (_id a)) = FILTER_ID)) acts
  else acts.

(** The body of the loop of [undoMigration]. *)
Definition undo_action (a : ActionRecord) : M unit :=
  try_catch
    ((if bool_decide (action a = insert_k) && bool_decide (status a = success)
      then
        key ← ObjectId (_id a);
        deleteOne (collection a) key ;;
        emit (Info (Deleted (String_of (_id a)) (collection a)))
      else mret tt) ;;
     (if bool_decide (action a = update_k) && bool_decide (status a = success)
      then
        match previous a with
        | PDoc p =>
            key ← ObjectId (_id a);
            replaceOne (collection a) key p ;;
            emit (Info (Restored (String_of (_id a)) (collection a)))
        | _ => mret tt
        end
      else mret tt))
    (fun err =>
     emit (Error (Undo_failed (String_of (_id a)) (collection a) err))).

Definition undoMigration (migrationData : MigrationLog) : M unit :=
  connect ;;
  emit (Info (Starting_undo (String_of TAG_UNDO)
                (if truthy FILTER_ID then FILTER_ID else None))) ;;
  for_of (candidates (actions migrationData)) undo_action ;;
  close ;;
  emit (Info Undo_complete).

(** The script.  A file of the journal directory is kept as the journal
    it holds, so the file is either missing or read as a journal; a
    file that is there and holds no journal is outside the model. *)
Definition undo_js : process := fun w =>
  if negb (truthy TAG_UNDO) then
    (1, said (Stderr "Please provide a tag to undo. Usage: node undo.js <TAG> [optional _id]") w)
  else
    match files w !! FILE_PATH with
    | None =>
        (1, said (Stderr ("Migration file not found: " +:+ FILE_PATH)) w)
    | Some migrationData =>
        match undoMigration migrationData w with
        | (Ok _, w') => (0, w')
        | (Throw err, w') => (1, said (Error (Undo_script_failed err)) w')
        end
    end.
End Undo.

(** ** The first generation: time-window undo *)

Module Legacy.

(** [s.replace(re, by)] for a global pattern [re] that matches single
    characters. *)
Definition replace_all (re : ascii -> bool) (by_ : ascii) (s : string) : string :=
  string_map (fun a => if re a then by_ else a) s.

(** A point in time by its UTC fields (a year of four digits). *)
Record instant := {
  year : nat;
  month : nat;
  day : nat;
  hours : nat;
  minutes : nat;
  seconds : nat;
  milliseconds : nat
}.

Definition digit (n : nat) : ascii :=
  match n with
  | 0 => "0" | 1 => "1" | 2 => "2" | 3 => "3" | 4 => "4"
  | 5 => "5" | 6 => "6" | 7 => "7" | 8 => "8" | _ => "9"
  end%char.

(** The last [len] decimal digits of [n], before [acc]. *)
Fixpoint pad (len n : nat) (acc : string) : string :=
  match len with
  | 0 => acc
  | S len' => pad len' (n / 10) (String (digit (n mod 10)) acc)
  end.

(** [YYYY-MM-DDTHH:mm:ss] and [sssZ], the two parts of the ISO string
    around its decimal point. *)
Definition up_to_seconds (t : instant) : string :=
  pad 4 (year t)
    (String "-" (pad 2 (month t)
    (String "-" (pad 2 (day t)
    (String "T" (pad 2 (hours t)
    (String ":" (pad 2 (minutes t)
    (String ":" (pad 2 (seconds t) ""))))))))))%char.

Definition from_milliseconds (t : instant) : string :=
  pad 3 (milliseconds t) "Z".

(** [date.toISOString()] for a year from 0 to 9999 (a later year is
    written with a sign and six digits, which is not modelled; see
    [in_range]). *)
Definition toISOString (t : instant) : string :=
  up_to_seconds t +:+ String "."%char (from_milliseconds t).

(** [new Date().toISOString().replace(/[:.]/g, "_")] *)
Definition TAG (now : instant) : string :=
  replace_all (fun a => bool_decide (a = ":"%char) || bool_decide (a = "."%char))
    "_"%char (toISOString now).

(** The string the undo script hands to [new Date]:
    [TAG_UNDO.replace(/_/g, ":")] *)
Definition undo_since (TAG_UNDO : string) : string :=
  replace_all (fun a => bool_decide (a = "_"%char)) ":"%char TAG_UNDO.

(** *** The scripts of the first generation

    They keep no journal.  An update is preceded by a copy of the
    matched documents into a side collection of the store, and the undo
    script works from the tag alone.  No call is wrapped in a handler:
    the first request the store rejects ends the script. *)

Inductive line :=
| Starting_migration (dry : bool)
| Tag_line (t : string)
| No_documents_to_back_up (c : string)
| Backed_up (n : nat) (c : string) (backupName : string)
| Would_insert (c : string) (d : gmap string value)
| Inserted (c : string)
| Would_update (n : nat) (c : string)
| Updated (n : nat) (c : string)
| Migration_complete
| Migration_failed (err : string)
| Starting_undo (t : string)
| Deleted (n : nat) (c : string)
| No_backup_found (backupCollection : string)
| Restored (n : nat) (backupCollection : string)
| Undo_complete
| Undo_failed (err : string).

Inductive event :=
| Connect
| Close
| Info (l : line)
| Warn (l : line)
| Error (l : line)
| Stderr (msg : string).

(** The surroundings of these scripts: the store, the answers it owes
    to the coming write requests, whether it can be reached, the
    driver's identifier generator, and what was logged. *)
Record state := State {
  db : gmap (string * string) (gmap string value);
  faults : list (option string);
  reachable : bool;
  next_oid : nat;
  events : list event
}.

Definition M (A : Type) : Type := state -> result A * state.

#[local] Instance M_ret : MRet M := fun A a st => (Ok a, st).
#[local] Instance M_bind : MBind M := fun A B f m st =>
  match m st with
  | (Ok a, st') => f a st'
  | (Throw e, st') => (Throw e, st')
  end.

Definition throw {A} (e : string) : M A := fun st => (Throw e, st).

Definition said (e : event) (st : state) : state :=
  State (db st) (faults st) (reachable st) (next_oid st) (events st ++ [e]).

Definition emit (e : event) : M unit := fun st => (Ok tt, said e st).

Definition set_db (f : gmap (string * string) (gmap string value) ->
                       gmap (string * string) (gmap string value)) : M unit :=
  fun st =>
  (Ok tt, State (f (db st)) (faults st) (reachable st) (next_oid st) (events st)).

Definition get_db : M (gmap (string * string) (gmap string value)) :=
  fun st => (Ok (db st), st).

Definition request : M unit := fun st =>
  match faults st with
  | [] => (Ok tt, st)
  | o :: fs =>
      let st' := State (db st) fs (reachable st) (next_oid st) (events st) in
      match o with
      | None => (Ok tt, st')
      | Some e => (Throw e, st')
      end
  end.

Definition connect : M unit := fun st =>
  if reachable st
  then emit Connect st
  else (Throw "MongoServerSelectionError", st).

Definition close : M unit := emit Close.

Definition find (c : string) (q : Filter)
  : M (list (string * gmap string value)) := fun st =>
  (Ok (found c q (db st)), st).

Definition gen_oid : M string := fun st =>
  (Ok (fresh_oid (next_oid st)),
   State (db st) (faults st) (reachable st) (S (next_oid st)) (events st)).

Definition insertOne (c : string) (d : gmap string value) : M string :=
  k ← gen_oid;
  request ;;
  s ← get_db;
  match s !! (c, k) with
  | Some _ => throw "MongoServerError: E11000 duplicate key"
  | None => set_db (insert (c, k) d) ;; mret k
  end.

(** [insertMany(docs)] for documents that have their [_id]: they are
    inserted in order, and the first identifier already in the
    collection ends the operation, the earlier ones staying inserted. *)
Fixpoint insert_each (c : string) (docs : list (string * gmap string value))
    (s : gmap (string * string) (gmap string value))
  : result unit * gmap (string * string) (gmap string value) :=
  match docs with
  | [] => (Ok tt, s)
  | doc :: docs' =>
      match s !! (c, doc.1) with
      | Some _ => (Throw "MongoBulkWriteError: E11000 duplicate key", s)
      | None => insert_each c docs' (<[(c, doc.1) := doc.2]> s)
      end
  end.

Definition insertMany (c : string)
    (docs : list (string * gmap string value)) : M unit :=
  request ;;
  s ← get_db;
  match insert_each c docs s with
  | (Ok _, s') => set_db (fun _ => s')
  | (Throw e, s') => set_db (fun _ => s') ;; throw e
  end.

(** [updateMany(q, {$set: u})]; the result is [modifiedCount], the
    number of matched documents the update changed. *)
Definition updateMany (c : string) (q : Filter) (u : Update) : M nat :=
  request ;;
  s ← get_db;
  let docs := found c q s in
  set_db (fun s => fold_left (fun s d => <[(c, d.1) := apply_set u d.2]> s) docs s) ;;
  mret (List.length
          (List.filter (fun d => negb (bool_decide (apply_set u d.2 = d.2))) docs)).

(** The stored documents of [c] whose fields satisfy [p]. *)
Definition docs_where (c : string) (p : gmap string value -> bool)
    (s : gmap (string * string) (gmap string value))
  : list (string * gmap string value) :=
  omap (fun e : (string * string) * gmap string value =>
          if bool_decide (e.1.1 = c) && p e.2
          then Some (e.1.2, e.2) else None)
       (map_to_list s).

(** [deleteMany(q)] for a query that [p] decides; the result is
    [deletedCount]. *)
Definition deleteMany (c : string) (p : gmap string value -> bool) : M nat :=
  request ;;
  s ← get_db;
  let docs := docs_where c p s in
  set_db (fun s => fold_left (fun s d => base.delete (c, d.1) s) docs s) ;;
  mret (List.length docs).

(** [bulkWrite] of one [updateOne] per document with filter
    [{_id: doc._id}], update [{$set: doc}] and [upsert: true]: a stored
    document takes every field of [doc] and keeps its other fields, a
    missing one is created from [doc].  The count is what the script
    logs, [modifiedCount + upsertedCount]. *)
Fixpoint restore_each (c : string) (docs : list (string * gmap string value))
    (s : gmap (string * string) (gmap string value))
  : nat * gmap (string * string) (gmap string value) :=
  match docs with
  | [] => (0, s)
  | doc :: docs' =>
      let old := s !! (c, doc.1) in
      let new := doc.2 ∪ default ∅ old in
      let r := restore_each c docs' (<[(c, doc.1) := new]> s) in
      ((if bool_decide (old = Some new) then 0 else 1) + r.1, r.2)
  end.

Definition bulkWrite (c : string)
    (docs : list (string * gmap string value)) : M nat :=
  request ;;
  s ← get_db;
  set_db (fun _ => (restore_each c docs s).2) ;;
  mret (restore_each c docs s).1.

(** [for (const x of l) { body x }] *)
Fixpoint for_each {A} (l : list A) (body : A -> M unit) : M unit :=
  match l with
  | [] => mret tt
  | x :: l' => body x ;; for_each l' body
  end.

Section Scripts.
(** [config.dryRun], the time the migration script is started at, and
    the store's reading of [{createdAt: {$gte: new Date(s)}}] on the
    fields of a document. *)
Variable dryRun : bool.
Variable now : instant.
Variable created_since : string -> gmap string value -> bool.

Definition backupName (collectionName : string) : string :=
  "_backup_" +:+ collectionName +:+ "_" +:+ TAG now.

Definition backupDocuments (collectionName : string) (filter : Filter)
  : M unit :=
  docs ← find collectionName filter;
  match docs with
  | [] => emit (Info (No_documents_to_back_up collectionName))
  | _ =>
      insertMany (backupName collectionName) docs ;;
      emit (Info (Backed_up (List.length docs) collectionName
                    (backupName collectionName)))
  end.

Definition insertDocument (collectionName : string)
    (doc : gmap string value) : M unit :=
  if dryRun then emit (Info (Would_insert collectionName doc))
  else
    insertOne collectionName doc ;;
    emit (Info (Inserted collectionName)).

Definition updateDocuments (collectionName : string) (filter : Filter)
    (u : Update) : M unit :=
  if dryRun then
    docs ← find collectionName filter;
    emit (Info (Would_update (List.length docs) collectionName))
  else
    backupDocuments collectionName filter ;;
    modifiedCount ← updateMany collectionName filter u;
    emit (Info (Updated modifiedCount collectionName)).

Definition runMigration : M unit :=
  connect ;;
  emit (Info (Starting_migration dryRun)) ;;
  emit (Info (Tag_line (TAG now))) ;;
  insertDocument "x" {[ "name" := VStr "X1"; "createdAt" := VDate (TAG now) ]} ;;
  insertDocument "y" {[ "name" := VStr "Y1"; "createdAt" := VDate (TAG now) ]} ;;
  updateDocuments "z" [("status", VStr "old")]
    [("status", VStr "new"); ("updatedAt", VDate (TAG now))] ;;
  close ;;
  emit (Info Migration_complete).

Definition migration_js (st : state) : nat * state :=
  match runMigration st with
  | (Ok _, st') => (0, st')
  | (Throw err, st') => (1, said (Error (Migration_failed err)) st')
  end.

(** The undo script; [TAG_UNDO] is [process.argv[2]]. *)
Definition undoMigration (TAG_UNDO : string) : M unit :=
  connect ;;
  emit (Info (Starting_undo TAG_UNDO)) ;;
  for_each ["x"; "y"] (fun col =>
    deletedCount ← deleteMany col (created_since (undo_since TAG_UNDO));
    emit (Info (Deleted deletedCount col))) ;;
  backupDocs ← find ("_backup_z_" +:+ TAG_UNDO) [];
  match backupDocs with
  | [] => emit (Warn (No_backup_found ("_backup_z_" +:+ TAG_UNDO)))
  | _ =>
      n ← bulkWrite "z" backupDocs;
      emit (Info (Restored n ("_backup_z_" +:+ TAG_UNDO)))
  end ;;
  close ;;
  emit (Info Undo_complete).

Definition undo_js (TAG_UNDO : option string) (st : state) : nat * state :=
  if negb (truthy TAG_UNDO) then
    (1, said (Stderr "Please provide a tag to undo. Usage: node undo.js <TAG>") st)
  else
    match undoMigration (String_of TAG_UNDO) st with
    | (Ok _, st') => (0, st')
    | (Throw err, st') => (1, said (Error (Undo_failed err)) st')
    end.
End Scripts.

End Legacy.

(** ** Vocabulary of the properties *)

(** The store, the answers it still owes and the identifier generator
    are as they were. *)
Definition untouched (w w' : world) : Prop :=
  db w' = db w /\ faults w' = faults w /\ next_oid w' = next_oid w.

(** Code that leaves the journal alone, in memory and on disk. *)
Definition same_journal (w w' : world) : Prop :=
  migrationLog w' = migrationLog w /\ files w' = files w /\
  reachable w' = reachable w.

Definition quiet {A} (m : M A) : Prop := forall w, same_journal w (m w).2.

(** What a world looks like once [es] have been recorded in it. *)
Definition journaled (migrationDir TAG : string)
    (es : list ActionRecord) (w w' : world) : Prop :=
  reachable w' = reachable w /\
  tag (migrationLog w') = tag (migrationLog w) /\
  createdAt (migrationLog w') = createdAt (migrationLog w) /\
  actions (migrationLog w') = actions (migrationLog w) ++ es /\
  (forall p, p <> MIGRATION_FILE migrationDir TAG -> files w' !! p = files w !! p) /\
  files w' !! MIGRATION_FILE migrationDir TAG =
    match es with [] => files w !! MIGRATION_FILE migrationDir TAG | _ => Some (migrationLog w') end.

(** The answer of the store to the next write request. *)
Definition next_answer (fs : list (option string)) : option string :=
  match fs with
  | o :: _ => o
  | [] => None
  end.

(** The entry of a matched document, by the answer to its update. *)
Definition entry_for (c : string) (u : Update)
    (doc : string * gmap string value) (o : option string) : ActionRecord :=
  match o with
  | Some err => error_update_entry c u doc err
  | None => success_update_entry c u doc
  end.

(** The entries of the matched documents, in order, each update taking
    the next answer of the store. *)
Fixpoint update_entries (c : string) (u : Update)
    (docs : list (string * gmap string value)) (fs : list (option string))
  : list ActionRecord :=
  match docs with
  | [] => []
  | doc :: docs' => entry_for c u doc (next_answer fs)
                    :: update_entries c u docs' (tail fs)
  end.

(** The store after [updateOne({_id: k}, {$set: u})] has been served. *)
Definition updated (c : string) (u : Update) (k : string)
    (s : gmap (string * string) (gmap string value))
  : gmap (string * string) (gmap string value) :=
  match s !! (c, k) with
  | Some fs => <[(c, k) := apply_set u fs]> s
  | None => s
  end.

(** The store after the updates of the matched documents that were served. *)
Fixpoint apply_updates (c : string) (u : Update)
    (docs : list (string * gmap string value)) (fs : list (option string))
    (s : gmap (string * string) (gmap string value))
  : gmap (string * string) (gmap string value) :=
  match docs with
  | [] => s
  | doc :: docs' =>
      apply_updates c u docs' (tail fs)
        (match next_answer fs with
         | None => updated c u doc.1 s
         | Some _ => s
         end)
  end.

(** The rule the journal follows for [previous]: an entry has it exactly
    when it is an update that did not fail. *)
Definition previous_rule (r : ActionRecord) : Prop :=
  previous r <> PAbsent <->
  action r = update_k /\ (status r = success \/ status r = dryRun_s).

(** The entries a dry run of [runMigration] records. *)
Definition dry_entries (TAG : string) (xData : list (gmap string value))
    (s : gmap (string * string) (gmap string value)) : list ActionRecord :=
  ((fun doc => insert_entry "x" doc dryRun_s None None) <$> xData)
  ++ [insert_entry "y" (doc_y TAG) dryRun_s None None]
  ++ (dry_update_entry "z" (update_z TAG) <$> found "z" filter_z s).

(** *** Undo *)

(** Whether the guards of the loop body select the action for an inverse
    operation. *)
Definition invertible (a : ActionRecord) : bool :=
  (bool_decide (action a = insert_k) && bool_decide (status a = success))
  || (bool_decide (action a = update_k) && bool_decide (status a = success)
      && match previous a with PDoc _ => true | _ => false end).

(** The stored document an action's inverse addresses, if any. *)
Definition target (a : ActionRecord) : option (string * string) :=
  match _id a with
  | Some x => match oid_of x with
              | Some k => Some (collection a, k)
              | None => None
              end
  | None => None
  end.

(** The store after the inverse of [a], when the store serves it. *)
Definition undo_store (a : ActionRecord)
    (s : gmap (string * string) (gmap string value))
  : gmap (string * string) (gmap string value) :=
  match target a with
  | None => s
  | Some (c, k) =>
      if bool_decide (action a = insert_k) && bool_decide (status a = success)
      then base.delete (c, k) s
      else if bool_decide (action a = update_k) && bool_decide (status a = success)
      then match previous a with
           | PDoc p =>
               match s !! (c, k) with
               | Some _ =>
                   if bool_decide (doc_id p = None \/ doc_id p = Some (VOid k))
                   then <[(c, k) := doc_fields p]> s
                   else s
               | None => s
               end
           | _ => s
           end
      else s
  end.

(** Whether the loop body sends the store a request for [a]: the guards
    select it and its identifier is accepted by [ObjectId]. *)
Definition sends (a : ActionRecord) : bool :=
  invertible a
  && match _id a with
     | Some x => bool_decide (is_Some (oid_of x))
     | None => true
     end.

(** What an inverse does to one stored document: nothing, remove it, or
    give it other fields if it is there. *)
Inductive shape :=
| Keep
| Del
| Repl (fs : gmap string value).

Definition act_shape (sh : shape) (x : option (gmap string value))
  : option (gmap string value) :=
  match sh with
  | Keep => x
  | Del => None
  | Repl fs => match x with Some _ => Some fs | None => None end
  end.

(** [sh2] after [sh1]. *)
Definition comp (sh2 sh1 : shape) : shape :=
  match sh2 with
  | Keep => sh1
  | Del => Del
  | Repl fs => match sh1 with Del => Del | _ => Repl fs end
  end.

Definition shape_of (a : ActionRecord) (ck : string * string) : shape :=
  if bool_decide (target a = Some ck) then
    if bool_decide (action a = insert_k) && bool_decide (status a = success)
    then Del
    else if bool_decide (action a = update_k) && bool_decide (status a = success)
    then match previous a with
         | PDoc p =>
             if bool_decide (doc_id p = None \/ doc_id p = Some (VOid ck.2))
             then Repl (doc_fields p) else Keep
         | _ => Keep
         end
    else Keep
  else Keep.

(** The rule as the specification words it: [previous] exactly on the
    updates that succeeded. *)
Definition previous_iff_success (r : ActionRecord) : Prop :=
  previous r <> PAbsent <-> action r = update_k /\ status r = success.

(** ** Sample inputs *)

Definition oid_a : string := "0000000000000000000000a1".

Definition empty_log : MigrationLog :=
  {| tag := ""; createdAt := ""; actions := [] |}.

(** A store with one document in [z] that the run's filter matches. *)
Definition store_z : gmap (string * string) (gmap string value) :=
  {[ ("z", oid_a) := {[ "status" := VStr "old" ]} ]}.

Definition world_z : world :=
  World store_z [] true 0 ∅ empty_log [].

Definition oid_b : string := "0000000000000000000000b2".

(** A journal as a run writes it: a document inserted in [y], a
    document of [z] updated, with the content it had before. *)
Definition journal_ex : MigrationLog :=
  {| tag := "T1"; createdAt := "now";
     actions :=
       [ insert_entry "y" (with_id (doc_y "T1") oid_b) success (Some oid_b) None;
         success_update_entry "z" (update_z "T1")
           (oid_a, {[ "status" := VStr "old" ]}) ] |}.

(** The world such a run leaves: the document of [y] is there, the
    document of [z] has taken the update, the journal is on disk. *)
Definition world_after : world :=
  World {[ ("y", oid_b) := doc_y "T1";
           ("z", oid_a) := {[ "status" := VStr "new";
                              "updatedAt" := VDate "T1" ]} ]}
        [] true 1
        {[ FILE_PATH "migrations" (Some "T1") := journal_ex ]}
        empty_log [].

(** An update entry whose [previous] is the empty object. *)
Definition entry_empty_previous : ActionRecord :=
  {| collection := "z"; action := update_k; status := success;
     _id := Some oid_a; document := None;
     previous := PDoc (mkDoc None ∅); update := None; error := None |}.

(** The fields of an instant are those of a date and a time of day
    (at most four, two and three decimal digits). *)
Definition in_range (t : Legacy.instant) : Prop :=
  Legacy.year t < 10 ^ 4 /\ Legacy.month t < 10 ^ 2 /\ Legacy.day t < 10 ^ 2
  /\ Legacy.hours t < 10 ^ 2 /\ Legacy.minutes t < 10 ^ 2
  /\ Legacy.seconds t < 10 ^ 2 /\ Legacy.milliseconds t < 10 ^ 3.

(** What the inverses of a journal do, taken together, to the document
    under [ck]. *)
Definition journal_shape (acts : list ActionRecord) (ck : string * string)
  : shape :=
  fold_left (fun sh a => comp (shape_of a ck) sh) acts Keep.

(** The store serves every request, and outside [z] the undo of the
    journal written so far would bring every document back to what it is
    in [s0]. *)
Definition undoable (s0 : gmap (string * string) (gmap string value))
    (w : world) : Prop :=
  faults w = []
  /\ forall c k, c <> "z" ->
       act_shape (journal_shape (actions (migrationLog w)) (c, k))
         (db w !! (c, k))
       = s0 !! (c, k).

(** A document that does not bring an identifier of its own, as the
    scripts insert them: the driver then generates one. *)
Definition no_id (doc : gmap string value) : Prop := doc !! "_id" = None.

(** What an entry of the insert of [doc] in [c] is, field by field.  In
    a dry run the payload is the document as it was passed.  Outside
    dry run it is the document with the identifier the driver wrote into
    it, and this identifier is the [_id] of the entry when the insert
    succeeded; a failed insert has the error text and no [_id]. *)
Definition insert_record (dry : bool) (c : string) (doc : gmap string value)
    (e : ActionRecord) : Prop :=
  collection e = c /\ action e = insert_k /\ previous e = PAbsent
  /\ update e = None
  /\ if dry
     then status e = dryRun_s /\ _id e = None /\ error e = None
          /\ document e = Some (toJSON <$> doc)
     else exists k,
            document e = Some (<["_id" := VStr k]> (toJSON <$> doc))
            /\ (status e = success /\ _id e = Some k /\ error e = None
                \/ status e = error_s /\ _id e = None /\ is_Some (error e)).

(** A store of the first generation after an update of [z] in the run
    tagged [T1]: the updated document and its backup. *)
Definition legacy_after : Legacy.state :=
  Legacy.State
    {[ ("z", oid_a) := {[ "status" := VStr "new"; "updatedAt" := VDate "T1" ]};
       ("_backup_z_T1", oid_a) := {[ "status" := VStr "old" ]} ]}
    [] true 0 [].

(** A store in which no document is dated at or after any time. *)
Definition never_since (since : string) (fs : gmap string value) : bool :=
  false.

(** 2025-01-01T12:00:00.000Z, and the store [store_z] at that time. *)
Definition noon : Legacy.instant :=
  {| Legacy.year := 2025; Legacy.month := 1; Legacy.day := 1;
     Legacy.hours := 12; Legacy.minutes := 0; Legacy.seconds := 0;
     Legacy.milliseconds := 0 |}.

Definition legacy_z : Legacy.state := Legacy.State store_z [] true 0 [].

(** What is left of a document of [z] with fields [fs] once
    [updateDocuments] with filter [q] and update [u] has been undone
    from its backup. *)
Definition restored (q : Filter) (u : Update) (fs : gmap string value)
  : gmap string value :=
  if matches q fs then fs ∪ apply_set u fs else fs.

(** Code of the first generation that leaves the connection as it is:
    whatever it logs, it does not close it. *)
Definition keeps_open {A} (m : Legacy.M A) : Prop :=
  forall st, exists evs,
    Legacy.events (m st).2 = Legacy.events st ++ evs /\ Legacy.Close ∉ evs.

(** Code that closes the connection on its normal path only, and ends
    that path with the line [l]. *)
Definition closes_on_success {A} (l : Legacy.line) (m : Legacy.M A) : Prop :=
  forall st, exists evs,
    Legacy.events (m st).2 = Legacy.events st ++ evs
    /\ match (m st).1 with
       | Ok _ => Legacy.Close ∈ evs /\ last evs = Some (Legacy.Info l)
       | Throw _ => Legacy.Close ∉ evs
       end.

(** ** Tactics *)

(** Closes a goal [exists w', m w = (Ok tt, w') /\ ...] for code that
    has been unfolded down to a value. *)
Ltac run_to_end :=
  eexists; split; [reflexivity|]; simpl; repeat split.

(** * Properties *)

(** ** Running sequential code *)

Lemma bind_Ok {A B} (m : M A) (f : A -> M B) w a w' :
  m w = (Ok a, w') -> (m ≫= f) w = f a w'.
Proof. intros H. unfold mbind, M_bind. now rewrite H. Qed.

Lemma bind_Throw {A B} (m : M A) (f : A -> M B) w e w' :
  m w = (Throw e, w') -> (m ≫= f) w = (Throw e, w').
Proof. intros H. unfold mbind, M_bind. now rewrite H. Qed.

Lemma for_of_app {A} (l1 l2 : list A) (body : A -> M unit) w w1 :
  for_of l1 body w = (Ok tt, w1) ->
  for_of (l1 ++ l2) body w = for_of l2 body w1.
Proof.
  revert w. induction l1 as [|x l1 IH]; intros w; simpl.
  - intros [= ->]. reflexivity.
  - unfold mbind, M_bind. destruct (body x w) as [[[]|e] wx]; [|discriminate].
    apply IH.
Qed.

(** A loop whose body never throws runs to its end. *)
Lemma for_of_total {A} (body : A -> M unit) (l : list A) :
  (forall x w, (body x w).1 = Ok tt) ->
  forall w, (for_of l body w).1 = Ok tt.
Proof.
  intros Hb. induction l as [|x l IH]; intros w; simpl; [reflexivity|].
  unfold mbind, M_bind. specialize (Hb x w).
  destruct (body x w) as [[[]|e] wx]; simpl in Hb; [apply IH | discriminate].
Qed.

(** ** The journal recorder *)

Lemma MigrationLog_ext (l1 l2 : MigrationLog) :
  tag l1 = tag l2 -> createdAt l1 = createdAt l2 -> actions l1 = actions l2 ->
  l1 = l2.
Proof. destruct l1, l2; simpl; congruence. Qed.


Lemma untouched_refl w : untouched w w.
Proof. repeat split. Qed.

Lemma untouched_trans w w1 w2 :
  untouched w w1 -> untouched w1 w2 -> untouched w w2.
Proof.
  intros (Hd & Hf & Hn) (Hd' & Hf' & Hn'). unfold untouched.
  rewrite Hd', Hf', Hn'. auto.
Qed.


Lemma same_journal_trans w w1 w2 :
  same_journal w w1 -> same_journal w1 w2 -> same_journal w w2.
Proof.
  intros (Hm & Hf & Hr) (Hm' & Hf' & Hr'). unfold same_journal.
  rewrite Hm', Hf', Hr'. auto.
Qed.

Lemma quiet_bind {A B} (m : M A) (f : A -> M B) :
  quiet m -> (forall a, quiet (f a)) -> quiet (m ≫= f).
Proof.
  intros Hm Hf w. unfold mbind, M_bind. specialize (Hm w).
  destruct (m w) as [[a|e] w1]; simpl in *; [|exact Hm].
  eapply same_journal_trans; [exact Hm | apply Hf].
Qed.

Lemma quiet_ret {A} (a : A) : quiet (mret a : M A).
Proof. intros w. repeat split. Qed.

Lemma quiet_throw {A} e : quiet (throw e : M A).
Proof. intros w. repeat split. Qed.

Lemma quiet_emit e : quiet (emit e).
Proof. intros w. repeat split. Qed.

Lemma quiet_set_db f : quiet (set_db f).
Proof. intros w. repeat split. Qed.

Lemma quiet_request : quiet request.
Proof.
  intros w. unfold request. destruct (faults w) as [|[e|] fs]; repeat split.
Qed.

Lemma quiet_try_catch {A} (m : M A) h :
  quiet m -> (forall e, quiet (h e)) -> quiet (try_catch m h).
Proof.
  intros Hm Hh w. unfold try_catch. specialize (Hm w).
  destruct (m w) as [[a|e] w1]; simpl in *; [exact Hm|].
  eapply same_journal_trans; [exact Hm | apply Hh].
Qed.

Lemma quiet_ObjectId x : quiet (ObjectId x).
Proof.
  destruct x as [s|]; simpl; [|apply quiet_ret].
  destruct (oid_of s); [apply quiet_ret | apply quiet_throw].
Qed.

Lemma quiet_insertOne c d : quiet (insertOne c d).
Proof.
  unfold insertOne. apply quiet_bind; [intros w; repeat split|]. intros k.
  apply quiet_bind; [apply quiet_request|]. intros _.
  apply quiet_bind; [intros w; repeat split|]. intros s.
  destruct (s !! (c, k)); [apply quiet_throw|].
  apply quiet_bind; [apply quiet_set_db | intros; apply quiet_ret].
Qed.

Lemma quiet_updateOne c k u : quiet (updateOne c k u).
Proof.
  unfold updateOne. apply quiet_bind; [apply quiet_request|].
  intros _. apply quiet_set_db.
Qed.

Lemma quiet_deleteOne c key : quiet (deleteOne c key).
Proof.
  unfold deleteOne. apply quiet_bind; [apply quiet_request|]. intros _.
  destruct key; [apply quiet_set_db | apply quiet_ret].
Qed.

Lemma quiet_replaceOne c key r : quiet (replaceOne c key r).
Proof.
  unfold replaceOne. apply quiet_bind; [apply quiet_request|]. intros _.
  destruct key as [k|]; [|apply quiet_ret].
  apply quiet_bind; [intros w; repeat split|]. intros s.
  destruct (s !! (c, k)); [|apply quiet_ret].
  destruct (bool_decide _); [apply quiet_set_db | apply quiet_throw].
Qed.

Section Recorder.
Variable migrationDir TAG : string.
Abbreviation logAction := (logAction migrationDir TAG).
Abbreviation path := (MIGRATION_FILE migrationDir TAG).
Abbreviation journaled := (journaled migrationDir TAG).


Lemma same_journal_journaled w w' : same_journal w w' -> journaled [] w w'.
Proof.
  intros (Hm & Hf & Hr). unfold journaled.
  rewrite Hm, Hf, Hr, app_nil_r. repeat split.
Qed.

Lemma journaled_refl w : journaled [] w w.
Proof. apply same_journal_journaled. repeat split. Qed.

Lemma logAction_journaled entry w :
  exists w', logAction entry w = (Ok tt, w')
             /\ journaled [entry] w w' /\ untouched w w'
             /\ events w' = events w.
Proof.
  eexists. split; [reflexivity|]. unfold journaled, untouched; simpl.
  repeat split; try reflexivity.
  - intros p Hp. now rewrite lookup_insert_ne.
  - now rewrite lookup_insert_eq.
Qed.

Lemma journaled_trans es1 es2 w w1 w2 :
  journaled es1 w w1 -> journaled es2 w1 w2 -> journaled (es1 ++ es2) w w2.
Proof.
  intros (Hr & Ht & Hc & Ha & Hp & Hq) (Hr' & Ht' & Hc' & Ha' & Hp' & Hq').
  unfold journaled.
  rewrite Hr', Ht', Hc', Ha', Ha, app_assoc.
  repeat split; try assumption.
  - intros p Hne. rewrite Hp', Hp by assumption. reflexivity.
  - rewrite Hq'. destruct es2 as [|e2 es2].
    + rewrite app_nil_r in *. rewrite Hq. destruct es1; [reflexivity|].
      f_equal. symmetry. apply MigrationLog_ext; assumption.
    + destruct es1; reflexivity.
Qed.

Lemma journaled_then_quiet es w w1 w2 :
  journaled es w w1 -> same_journal w1 w2 -> journaled es w w2.
Proof.
  intros J Q. rewrite <- (app_nil_r es).
  eapply journaled_trans; [exact J | now apply same_journal_journaled].
Qed.

Lemma quiet_journaled {A} (m : M A) w : quiet m -> journaled [] w (m w).2.
Proof. intros Hq. apply same_journal_journaled, Hq. Qed.

Lemma for_of_logAction {A} (f : A -> ActionRecord) (l : list A) w :
  exists w', for_of l (fun x => logAction (f x)) w = (Ok tt, w')
             /\ journaled (f <$> l) w w' /\ untouched w w'
             /\ events w' = events w.
Proof.
  revert w. induction l as [|x l IH]; intros w.
  - exists w. repeat split. apply journaled_refl.
  - destruct (logAction_journaled (f x) w) as (w1 & E1 & R1 & U1 & V1).
    destruct (IH w1) as (w2 & E2 & R2 & U2 & V2).
    exists w2. split; [|split; [|split]].
    + simpl. erewrite bind_Ok by exact E1. exact E2.
    + change (f <$> x :: l) with ([f x] ++ (f <$> l)).
      eapply journaled_trans; eassumption.
    + eapply untouched_trans; eassumption.
    + congruence.
Qed.

(** [insertDocument], in either mode, records one entry of an insert, and
    in a dry run nothing but the journal changes. *)
Lemma insertDocument_journaled dry c doc w :
  exists w' e, insertDocument dry migrationDir TAG c doc w = (Ok tt, w')
    /\ journaled [e] w w'
    /\ action e = insert_k /\ previous e = PAbsent
    /\ (dry = true -> e = insert_entry c doc dryRun_s None None
                      /\ untouched w w').
Proof.
  unfold insertDocument. destruct dry.
  - destruct (logAction_journaled
                (insert_entry c doc dryRun_s None None)
                (said (Info (Would_insert c doc)) w)) as (w' & E & J & U & _).
    exists w', (insert_entry c doc dryRun_s None None).
    split; [exact E|].
    split; [|split; [reflexivity|split; [reflexivity|intros _; split;
                                          [reflexivity|exact U]]]].
    eapply (journaled_trans [] [_]); [|exact J].
    apply (quiet_journaled (emit _) w), quiet_emit.
  - unfold try_catch.
    pose proof (quiet_journaled (insertOne c doc) w (quiet_insertOne c doc)) as Q.
    destruct (insertOne c doc w) as [[k|err] w1] eqn:E1; simpl in Q.
    + destruct (logAction_journaled
                  (insert_entry c (with_id doc (fresh_oid (next_oid w)))
                     success (Some k) None)
                  (said (Info (Inserted c)) w1)) as (w' & E & J & _).
      exists w', (insert_entry c (with_id doc (fresh_oid (next_oid w)))
                    success (Some k) None).
      split; [|split; [|repeat split; discriminate]].
      * erewrite bind_Ok by exact E1. exact E.
      * eapply (journaled_trans [] [_]); [exact Q|].
        eapply (journaled_trans [] [_]); [|exact J].
        apply (quiet_journaled (emit _) w1), quiet_emit.
    + destruct (logAction_journaled
                  (insert_entry c (with_id doc (fresh_oid (next_oid w)))
                     error_s None (Some err))
                  (said (Error (Insert_failed c err)) w1)) as (w' & E & J & _).
      exists w', (insert_entry c (with_id doc (fresh_oid (next_oid w)))
                    error_s None (Some err)).
      split; [|split; [|repeat split; discriminate]].
      * erewrite bind_Throw by exact E1. exact E.
      * eapply (journaled_trans [] [_]); [exact Q|].
        eapply (journaled_trans [] [_]); [|exact J].
        apply (quiet_journaled (emit _) w1), quiet_emit.
Qed.

Lemma insertMultipleDocuments_journaled dry c docs w :
  exists w' es,
    insertMultipleDocuments dry migrationDir TAG c docs w = (Ok tt, w')
    /\ journaled es w w'
    /\ Forall (fun e => action e = insert_k /\ previous e = PAbsent) es
    /\ (dry = true ->
        es = (fun doc => insert_entry c doc dryRun_s None None) <$> docs
        /\ untouched w w').
Proof.
  unfold insertMultipleDocuments. revert w.
  induction docs as [|doc docs IH]; intros w.
  - exists w, []. split; [reflexivity|]. split; [apply journaled_refl|].
    split; [constructor|]. intros _. split; [reflexivity|apply untouched_refl].
  - destruct (insertDocument_journaled dry c doc w)
      as (w1 & e & E1 & J1 & Ha & Hp & Hd).
    destruct (IH w1) as (w2 & es & E2 & J2 & Hall & Hd2).
    exists w2, ([e] ++ es). split; [|split; [|split]].
    + simpl. erewrite bind_Ok by exact E1. exact E2.
    + eapply journaled_trans; eassumption.
    + constructor; auto.
    + intros ->. destruct Hd as [-> U1]; [reflexivity|].
      destruct Hd2 as [-> U2]; [reflexivity|].
      split; [reflexivity | eapply untouched_trans; eassumption].
Qed.

(** One turn of the loop of [updateDocuments]: the update is sent, and
    the entry follows the answer of the store. *)
Lemma update_one_doc_spec c u doc w :
  exists w', update_one_doc migrationDir TAG c u doc w = (Ok tt, w')
    /\ journaled [entry_for c u doc (next_answer (faults w))] w w'
    /\ faults w' = tail (faults w)
    /\ db w' = match next_answer (faults w) with
               | None => updated c u doc.1 (db w)
               | Some _ => db w
               end
    /\ next_oid w' = next_oid w.
Proof.
  destruct w as [s fs r n fl ml ev].
  destruct fs as [|[err|] fs]; unfold journaled; run_to_end;
    try (intros p Hp; now rewrite lookup_insert_ne);
    try (now rewrite lookup_insert_eq).
Qed.

Lemma update_loop_spec c u docs w :
  exists w', for_of docs (update_one_doc migrationDir TAG c u) w = (Ok tt, w')
    /\ journaled (update_entries c u docs (faults w)) w w'
    /\ faults w' = drop (List.length docs) (faults w)
    /\ db w' = apply_updates c u docs (faults w) (db w)
    /\ next_oid w' = next_oid w.
Proof.
  revert w. induction docs as [|doc docs IH]; intros w.
  - exists w. split; [reflexivity|]. split; [apply journaled_refl|].
    simpl. rewrite drop_0. auto.
  - destruct (update_one_doc_spec c u doc w) as (w1 & E1 & J1 & F1 & D1 & N1).
    destruct (IH w1) as (w2 & E2 & J2 & F2 & D2 & N2).
    exists w2. split; [|split; [|split; [|split]]].
    + simpl. erewrite bind_Ok by exact E1. exact E2.
    + simpl. rewrite F1 in J2.
      apply (journaled_trans [_] _ w w1 w2); assumption.
    + rewrite F2, F1. destruct (faults w); simpl;
        [now rewrite drop_nil | reflexivity].
    + rewrite D2, F1, D1. reflexivity.
    + congruence.
Qed.

Lemma updateDocuments_live c q u w :
  exists w', updateDocuments false migrationDir TAG c q u w = (Ok tt, w')
    /\ journaled (update_entries c u (found c q (db w)) (faults w)) w w'
    /\ faults w' = drop (List.length (found c q (db w))) (faults w)
    /\ db w' = apply_updates c u (found c q (db w)) (faults w) (db w)
    /\ next_oid w' = next_oid w.
Proof. apply update_loop_spec. Qed.

Lemma updateDocuments_dry c q u w :
  exists w', updateDocuments true migrationDir TAG c q u w = (Ok tt, w')
    /\ journaled (dry_update_entry c u <$> found c q (db w)) w w'
    /\ untouched w w'.
Proof.
  destruct (for_of_logAction (dry_update_entry c u) (found c q (db w))
              (said (Info (Would_update (List.length (found c q (db w))) c)) w))
    as (w' & E & J & U & _).
  exists w'. split; [exact E|]. split; [|exact U].
  eapply (journaled_trans []); [|exact J].
  apply (quiet_journaled (emit _) w), quiet_emit.
Qed.

Lemma previous_rule_insert e :
  action e = insert_k -> previous e = PAbsent -> previous_rule e.
Proof.
  intros Ha Hp. unfold previous_rule. rewrite Ha, Hp.
  split; [congruence | intros [[=] _]].
Qed.

Lemma previous_rule_dry_update c u doc : previous_rule (dry_update_entry c u doc).
Proof. unfold previous_rule; simpl. split; [auto | discriminate]. Qed.

Lemma previous_rule_entry_for c u doc o : previous_rule (entry_for c u doc o).
Proof.
  unfold previous_rule. destruct o; simpl.
  - split; [congruence | intros [_ [[=]|[=]]]].
  - split; [auto | discriminate].
Qed.

Lemma previous_rule_update_entries c u docs fs :
  Forall previous_rule (update_entries c u docs fs).
Proof.
  revert fs. induction docs as [|doc docs IH]; intros fs; simpl;
    constructor; auto using previous_rule_entry_for.
Qed.

Lemma runMigration_unreachable dry xData w :
  reachable w = false ->
  runMigration dry migrationDir TAG xData w
  = (Throw "MongoServerSelectionError", w).
Proof.
  intros Hr. unfold runMigration. apply bind_Throw.
  unfold connect. now rewrite Hr.
Qed.

(** A run against a reachable store ends normally; its entries follow
    the rule for [previous], and in a dry run they are [dry_entries] and
    nothing but the journal has changed. *)
Lemma runMigration_journaled dry xData w :
  reachable w = true ->
  exists w' es,
    runMigration dry migrationDir TAG xData w = (Ok tt, w')
    /\ journaled es w w'
    /\ Forall previous_rule es
    /\ (dry = true -> es = dry_entries TAG xData (db w) /\ untouched w w').
Proof.
  intros Hr. unfold runMigration.
  erewrite bind_Ok by (unfold connect; rewrite Hr; reflexivity).
  erewrite bind_Ok by reflexivity. erewrite bind_Ok by reflexivity.
  set (w0 := said (Info (Tag_line TAG))
               (said (Info (Starting_migration dry)) (said Connect w))).
  assert (J0 : journaled [] w w0) by (apply same_journal_journaled; repeat split).
  destruct (insertMultipleDocuments_journaled dry "x" xData w0)
    as (w1 & es1 & E1 & J1 & A1 & D1).
  erewrite bind_Ok by exact E1.
  destruct (insertDocument_journaled dry "y" (doc_y TAG) w1)
    as (w2 & e2 & E2 & J2 & Ha2 & Hp2 & D2).
  erewrite bind_Ok by exact E2.
  assert (J02 : journaled (es1 ++ [e2]) w w2).
  { apply (journaled_trans [] _ w w0 w2); [exact J0|].
    eapply journaled_trans; eassumption. }
  assert (A02 : Forall previous_rule (es1 ++ [e2])).
  { apply Forall_app. split.
    - eapply Forall_impl; [exact A1|]. intros e [Ha Hp].
      now apply previous_rule_insert.
    - constructor; [now apply previous_rule_insert | constructor]. }
  destruct dry.
  - destruct (updateDocuments_dry "z" filter_z (update_z TAG) w2)
      as (w3 & E3 & J3 & U3).
    erewrite bind_Ok by exact E3.
    destruct D1 as [-> U1]; [reflexivity|].
    destruct D2 as [-> U2]; [reflexivity|].
    assert (U : untouched w w3).
    { eapply untouched_trans; [|exact U3].
      eapply untouched_trans; [|exact U2]. exact U1. }
    assert (Hdb : db w2 = db w).
    { destruct U1 as [Hd1 _], U2 as [Hd2 _]. rewrite Hd2. exact Hd1. }
    rewrite Hdb in J3.
    exists (said (Info Migration_complete) (said Close w3)),
           (dry_entries TAG xData (db w)).
    split; [reflexivity|].
    split; [|split; [|intros _; split; [reflexivity|exact U]]].
    + apply (journaled_then_quiet _ w w3); [|repeat split].
      unfold dry_entries. rewrite app_assoc.
      eapply journaled_trans; [exact J02 | exact J3].
    + unfold dry_entries. rewrite app_assoc.
      apply Forall_app. split; [exact A02|].
      apply Forall_fmap, Forall_forall. intros doc _.
      apply previous_rule_dry_update.
  - destruct (updateDocuments_live "z" filter_z (update_z TAG) w2)
      as (w3 & E3 & J3 & _).
    erewrite bind_Ok by exact E3.
    exists (said (Info Migration_complete) (said Close w3)),
           ((es1 ++ [e2])
            ++ update_entries "z" (update_z TAG)
                 (found "z" filter_z (db w2)) (faults w2)).
    split; [reflexivity|].
    split; [|split; [|discriminate]].
    + apply (journaled_then_quiet _ w w3); [|repeat split].
      eapply journaled_trans; [exact J02 | exact J3].
    + apply Forall_app. split; [exact A02|].
      apply previous_rule_update_entries.
Qed.
End Recorder.

(** C9.  [logAction] returns normally with exactly the new entry added at
    the end of the run's actions and with the whole run object in the
    journal file named after the tag; the tag and the store are untouched.
    Whatever is recorded later ([later], one call after the other) leaves
    the entries already there in place, as a prefix of the longer
    sequence, and the file again holds the whole run. *)
Theorem logAction_append_only (migrationDir TAG : string)
    (entry : ActionRecord) (later : list ActionRecord) (w : world) :
  let r1 := logAction migrationDir TAG entry w in
  let r2 := for_of later (logAction migrationDir TAG) r1.2 in
  let file := path_join migrationDir ("migration_" +:+ TAG +:+ ".json") in
  r1.1 = Ok tt
  /\ actions (migrationLog r1.2) = actions (migrationLog w) ++ [entry]
  /\ tag (migrationLog r1.2) = tag (migrationLog w)
  /\ files r1.2 !! file = Some (migrationLog r1.2)
  /\ db r1.2 = db w
  /\ r2.1 = Ok tt
  /\ actions (migrationLog r2.2) = (actions (migrationLog w) ++ [entry]) ++ later
  /\ take (List.length (actions (migrationLog r1.2))) (actions (migrationLog r2.2))
     = actions (migrationLog r1.2)
  /\ files r2.2 !! file = Some (migrationLog r2.2).
Proof.
  intros r1 r2 file.
  destruct (logAction_journaled migrationDir TAG entry w)
    as (w1 & E1 & R1 & (Hd & _) & _).
  destruct (for_of_logAction migrationDir TAG (fun e => e) later w1)
    as (w2 & E2 & R2 & _).
  rewrite list_fmap_id in R2.
  pose proof (journaled_trans _ _ _ _ _ _ _ R1 R2) as R12.
  assert (Hr1 : r1 = (Ok tt, w1)) by exact E1.
  assert (Hr2 : r2 = (Ok tt, w2)) by (subst r2; rewrite Hr1; exact E2).
  rewrite Hr1, Hr2; simpl.
  destruct R1 as (_ & Ht & _ & Ha & _ & Hq).
  destruct R2 as (_ & _ & _ & Ha' & _ & _).
  destruct R12 as (_ & _ & _ & _ & _ & Hq').
  repeat split; try assumption.
  - rewrite Ha', Ha. reflexivity.
  - rewrite Ha'. apply take_app_length.
Qed.

(** ** What [find] hands over *)

Lemma elem_of_found c q s k fs :
  (k, fs) ∈ found c q s <-> s !! (c, k) = Some fs /\ matches q fs = true.
Proof.
  unfold found. rewrite list_elem_of_omap. split.
  - intros ([[c' k'] fs'] & Hin & Hsome). simpl in Hsome.
    destruct (bool_decide (c' = c)) eqn:Hc; simpl in Hsome; [|discriminate].
    destruct (matches q fs') eqn:Hm; [|discriminate].
    injection Hsome as -> ->. apply bool_decide_eq_true_1 in Hc as ->.
    apply elem_of_map_to_list in Hin. auto.
  - intros [Hl Hm]. exists ((c, k), fs). split.
    + now apply elem_of_map_to_list.
    + simpl. rewrite bool_decide_eq_true_2 by reflexivity. simpl.
      now rewrite Hm.
Qed.

Lemma found_NoDup c q s : NoDup (found c q s).*1.
Proof.
  unfold found.
  pose proof (NoDup_fst_map_to_list s) as Hnd.
  induction (map_to_list s) as [|[[c' k'] fs'] l IH]; simpl; [constructor|].
  inversion Hnd as [|? ? Hnotin Hnd']; subst.
  destruct (bool_decide (c' = c)) eqn:Hc; simpl; [|auto].
  destruct (matches q fs'); [|auto].
  simpl. constructor; [|auto].
  apply bool_decide_eq_true_1 in Hc as ->.
  intros Hin. apply Hnotin.
  apply list_elem_of_fmap in Hin as ([k2 fs2] & Hk & Hin). simpl in Hk. subst k2.
  apply list_elem_of_omap in Hin as ([[c3 k3] fs3] & Hin & Hsome).
  simpl in Hsome.
  destruct (bool_decide (c3 = c)) eqn:Hc3; simpl in Hsome; [|discriminate].
  destruct (matches q fs3); [|discriminate].
  injection Hsome as -> ->. apply bool_decide_eq_true_1 in Hc3 as ->.
  apply list_elem_of_fmap. exists ((c, k'), fs2). auto.
Qed.

Lemma updated_other c u k s c' k' :
  (c', k') <> (c, k) -> updated c u k s !! (c', k') = s !! (c', k').
Proof.
  intros Hne. unfold updated. destruct (s !! (c, k)); [|reflexivity].
  now rewrite lookup_insert_ne.
Qed.

Lemma updated_same c u k s :
  updated c u k s !! (c, k) = apply_set u <$> s !! (c, k).
Proof.
  unfold updated. destruct (s !! (c, k)) eqn:E; simpl.
  - now rewrite lookup_insert_eq.
  - exact E.
Qed.

Lemma apply_updates_other c u docs fs s c' k' :
  (c' = c -> k' ∉ docs.*1) ->
  apply_updates c u docs fs s !! (c', k') = s !! (c', k').
Proof.
  revert fs s. induction docs as [|doc docs IH]; intros fs s Hk; simpl;
    [reflexivity|].
  rewrite IH.
  - destruct (next_answer fs); [reflexivity|].
    apply updated_other. intros [= -> ->]. apply (Hk eq_refl). simpl. left.
  - intros Hc Hin. apply (Hk Hc). simpl. now right.
Qed.

(** Each matched document is touched by its own update only: it takes
    the update when the store served it and stays as it was otherwise. *)
Lemma apply_updates_lookup c u docs fs s i doc :
  NoDup docs.*1 -> docs !! i = Some doc ->
  apply_updates c u docs fs s !! (c, doc.1)
  = match mjoin (fs !! i) with
    | Some _ => s !! (c, doc.1)
    | None => apply_set u <$> s !! (c, doc.1)
    end.
Proof.
  revert fs s i. induction docs as [|d docs IH]; intros fs s i Hnd Hi;
    [discriminate|].
  simpl in Hnd. inversion Hnd as [|? ? Hnotin Hnd']; subst.
  destruct i as [|i]; simpl in Hi.
  - injection Hi as ->. simpl.
    rewrite apply_updates_other by (intros _; exact Hnotin).
    destruct fs as [|[err|] fs]; simpl; auto using updated_same.
  - simpl. rewrite (IH _ _ i Hnd' Hi).
    assert (Hne : (c, doc.1) <> (c, d.1)).
    { intros [= Heq]. apply Hnotin. rewrite <- Heq.
      apply list_elem_of_fmap. exists doc. split; [reflexivity|].
      eapply list_elem_of_lookup_2. exact Hi. }
    assert (Hs : match next_answer fs with
                 | Some _ => s
                 | None => updated c u d.1 s
                 end !! (c, doc.1) = s !! (c, doc.1)).
    { destruct (next_answer fs); [reflexivity|]. now apply updated_other. }
    rewrite Hs. destruct fs as [|o fs]; simpl; reflexivity.
Qed.

Lemma update_entries_length c u docs fs :
  List.length (update_entries c u docs fs) = List.length docs.
Proof. revert fs. induction docs; intros fs; simpl; auto. Qed.

Lemma update_entries_lookup c u docs fs i doc :
  docs !! i = Some doc ->
  update_entries c u docs fs !! i = Some (entry_for c u doc (mjoin (fs !! i))).
Proof.
  revert fs i. induction docs as [|d docs IH]; intros fs i Hi; [discriminate|].
  destruct i as [|i]; simpl in *.
  - injection Hi as ->. now destruct fs.
  - rewrite (IH _ _ Hi). destruct fs; simpl; reflexivity.
Qed.

(** ** The executor *)

Lemma migration_js_start dry migrationDir TAG now xData w :
  migration_js dry migrationDir TAG now xData w
  = match runMigration dry migrationDir TAG xData
            (World (db w) (faults w) (reachable w) (next_oid w) (files w)
                   {| tag := TAG; createdAt := now; actions := [] |} (events w))
    with
    | (Ok _, w') => (0, w')
    | (Throw err, w') => (1, said (Error (Migration_failed err)) w')
    end.
Proof. reflexivity. Qed.

(** A dry run of the script, as a whole. *)
Lemma migration_js_dry migrationDir TAG now xData w :
  let r := migration_js true migrationDir TAG now xData w in
  db r.2 = db w /\ faults r.2 = faults w
  /\ if reachable w
     then r.1 = 0
          /\ actions (migrationLog r.2) = dry_entries TAG xData (db w)
          /\ files r.2 !! MIGRATION_FILE migrationDir TAG
             = Some (migrationLog r.2)
     else r.1 = 1 /\ actions (migrationLog r.2) = [].
Proof.
  intros r. subst r. rewrite migration_js_start.
  set (w0 := World _ _ _ _ _ _ _).
  assert (Hr : reachable w0 = reachable w) by reflexivity.
  destruct (reachable w).
  - destruct (runMigration_journaled migrationDir TAG true xData w0 Hr)
      as (w' & es & E & J & _ & D).
    destruct D as [-> (Hd & Hf & _)]; [reflexivity|].
    rewrite E. simpl. repeat split; try assumption.
    + destruct J as (_ & _ & _ & Ha & _). exact Ha.
    + destruct J as (_ & _ & _ & _ & _ & Hq). rewrite Hq.
      unfold dry_entries. now destruct (_ <$> xData).
  - rewrite (runMigration_unreachable migrationDir TAG true xData w0 Hr).
    simpl. auto.
Qed.

(** C4.  A run with the dry-run flag leaves the store as it was and sends
    it no write request (the answers the store owes are not consumed),
    whatever the store holds.  When the store is reachable the script
    ends with code 0 and the journal holds exactly the dry-run entries:
    one per document of the data file, one for the document of [y], one
    per document of [z] that matches the filter; all have status dryRun
    and the journal file holds them.  The same holds call by call: a dry
    [insertDocument] records one dry-run entry, a dry [updateDocuments]
    one per matched document, and neither touches the store. *)
Theorem dry_run_writes_nothing (migrationDir TAG now : string)
    (xData : list (gmap string value)) (w : world) :
  let r := migration_js true migrationDir TAG now xData w in
  db r.2 = db w
  /\ faults r.2 = faults w
  /\ (if reachable w
      then r.1 = 0
           /\ actions (migrationLog r.2) = dry_entries TAG xData (db w)
           /\ Forall (fun e => status e = dryRun_s) (dry_entries TAG xData (db w))
           /\ List.length (dry_entries TAG xData (db w))
              = List.length xData + 1 + List.length (found "z" filter_z (db w))
           /\ files r.2 !! MIGRATION_FILE migrationDir TAG
              = Some (migrationLog r.2)
      else r.1 = 1 /\ actions (migrationLog r.2) = [])
  /\ (forall c doc w0,
        let r0 := insertDocument true migrationDir TAG c doc w0 in
        r0.1 = Ok tt /\ db r0.2 = db w0 /\ faults r0.2 = faults w0
        /\ actions (migrationLog r0.2)
           = actions (migrationLog w0) ++ [insert_entry c doc dryRun_s None None])
  /\ (forall c q u w0,
        let r0 := updateDocuments true migrationDir TAG c q u w0 in
        r0.1 = Ok tt /\ db r0.2 = db w0 /\ faults r0.2 = faults w0
        /\ actions (migrationLog r0.2)
           = actions (migrationLog w0)
             ++ (dry_update_entry c u <$> found c q (db w0))).
Proof.
  intros r.
  destruct (migration_js_dry migrationDir TAG now xData w) as (Hd & Hf & Hrest).
  fold r in Hd, Hf, Hrest.
  split; [exact Hd|]. split; [exact Hf|]. split; [|split].
  - destruct (reachable w); [|exact Hrest].
    destruct Hrest as (H0 & Ha & Hfile).
    repeat split; try assumption.
    + unfold dry_entries. rewrite !Forall_app. repeat split.
      * apply Forall_fmap, Forall_forall. now intros.
      * constructor; [reflexivity | constructor].
      * apply Forall_fmap, Forall_forall. now intros.
    + unfold dry_entries.
      rewrite !length_app, !length_fmap. simpl. lia.
  - intros c doc w0 r0.
    destruct (insertDocument_journaled migrationDir TAG true c doc w0)
      as (w' & e & E & J & _ & _ & D).
    destruct D as [-> (Hd0 & Hf0 & _)]; [reflexivity|].
    subst r0. rewrite E. simpl. repeat split; try assumption.
    destruct J as (_ & _ & _ & Ha & _). exact Ha.
  - intros c q u w0 r0.
    destruct (updateDocuments_dry migrationDir TAG c q u w0)
      as (w' & E & J & (Hd0 & Hf0 & _)).
    subst r0. rewrite E. simpl. repeat split; try assumption.
    destruct J as (_ & _ & _ & Ha & _). exact Ha.
Qed.

(** C6.  Outside dry run, [updateDocuments] ends normally whatever the
    store answers.  It records one entry per matched document, in order:
    the entry of a document whose update the store rejected has status
    error and carries that error, the entry of every other matched
    document has status success, whether it comes before or after a
    failure.  In the store, a document whose update failed is as it was
    and every other matched document has taken the update.  The last
    part says the same of the journal field by field: the entry at the
    place of the matched document is an update of that collection with
    the identifier of that document and the update that was asked for;
    when the store rejected the request it has status error, the text of
    that error and no [previous], and otherwise status success, no error
    and the document as it was as [previous]. *)
Theorem update_failure_is_local (migrationDir TAG c : string)
    (q : Filter) (u : Update) (w : world) :
  let docs := found c q (db w) in
  let r := updateDocuments false migrationDir TAG c q u w in
  r.1 = Ok tt
  /\ actions (migrationLog r.2)
     = actions (migrationLog w) ++ update_entries c u docs (faults w)
  /\ List.length (update_entries c u docs (faults w)) = List.length docs
  /\ (forall i doc, docs !! i = Some doc ->
        update_entries c u docs (faults w) !! i
        = Some (match mjoin (faults w !! i) with
                | Some err => error_update_entry c u doc err
                | None => success_update_entry c u doc
                end))
  /\ (forall i doc, docs !! i = Some doc ->
        db r.2 !! (c, doc.1)
        = match mjoin (faults w !! i) with
          | Some _ => Some doc.2
          | None => Some (apply_set u doc.2)
          end)
  /\ (forall i doc, docs !! i = Some doc ->
        exists e,
          actions (migrationLog r.2)
            !! (List.length (actions (migrationLog w)) + i) = Some e
          /\ collection e = c /\ action e = update_k
          /\ _id e = Some doc.1 /\ document e = None
          /\ update e = Some ((fun kv => (kv.1, toJSON kv.2)) <$> u)
          /\ match mjoin (faults w !! i) with
             | Some err =>
                 status e = error_s /\ error e = Some err
                 /\ previous e = PAbsent
             | None =>
                 status e = success /\ error e = None
                 /\ previous e
                    = PDoc (mkDoc (Some (VStr doc.1)) (toJSON <$> doc.2))
             end).
Proof.
  intros docs r.
  destruct (updateDocuments_live migrationDir TAG c q u w)
    as (w' & E & J & _ & Hdb & _).
  subst r. rewrite E. simpl.
  split; [reflexivity|]. split; [|split; [|split; [|split]]].
  - destruct J as (_ & _ & _ & Ha & _). exact Ha.
  - apply update_entries_length.
  - intros i doc Hi. now rewrite (update_entries_lookup _ _ _ _ _ _ Hi).
  - intros i doc Hi. rewrite Hdb.
    rewrite (apply_updates_lookup _ _ _ _ _ i doc (found_NoDup c q (db w)) Hi).
    assert (Hs : db w !! (c, doc.1) = Some doc.2).
    { apply (elem_of_found c q). destruct doc as [k fs].
      eapply list_elem_of_lookup_2. exact Hi. }
    rewrite Hs. now destruct (mjoin (faults w !! i)).
  - intros i doc Hi. destruct J as (_ & _ & _ & Ha & _). rewrite Ha.
    rewrite lookup_app_r by lia.
    replace (List.length (actions (migrationLog w)) + i
             - List.length (actions (migrationLog w))) with i by lia.
    rewrite (update_entries_lookup _ _ _ _ _ _ Hi).
    eexists. split; [reflexivity|].
    destruct (mjoin (faults w !! i)); repeat split.
Qed.

(** C1, as the code has it.  Every entry a run writes, in either mode and
    whatever the store answers, has [previous] if and only if it is an
    update with status success or dryRun: no insert entry and no error
    entry has it, every dry-run entry of an update has it.  The same
    holds for the entries any single call of [insertDocument] or
    [updateDocuments] adds.  What [previous] holds is said field by
    field: the one entry of [insertDocument] is an insert without
    [previous]; [updateDocuments] adds one entry per matched document,
    in order, an update with the identifier of that document, and its
    [previous] is the matched document itself, as JSON keeps it (the
    identifier as its string, the fields), in a dry run, where the
    status is dryRun, and after an update the store served, where it is
    success, and is absent after a rejected update, where the status is
    error.  In the journal of a whole dry run the entries after those of
    the inserts are these dry-run entries of the documents of [z] that
    match. *)
Theorem journal_previous_rule (dry : bool) (migrationDir TAG now : string)
    (xData : list (gmap string value)) (w : world) :
  Forall previous_rule
    (actions (migrationLog (migration_js dry migrationDir TAG now xData w).2))
  /\ (forall c doc w0, exists e,
        actions (migrationLog (insertDocument dry migrationDir TAG c doc w0).2)
        = actions (migrationLog w0) ++ [e] /\ previous_rule e
        /\ action e = insert_k /\ previous e = PAbsent)
  /\ (forall c q u w0, exists es,
        actions (migrationLog (updateDocuments dry migrationDir TAG c q u w0).2)
        = actions (migrationLog w0) ++ es /\ Forall previous_rule es
        /\ List.length es = List.length (found c q (db w0))
        /\ forall i doc, found c q (db w0) !! i = Some doc ->
             exists e,
               es !! i = Some e /\ action e = update_k /\ _id e = Some doc.1
               /\ if dry
                  then status e = dryRun_s
                       /\ previous e
                          = PDoc (mkDoc (Some (VStr doc.1)) (toJSON <$> doc.2))
                  else match mjoin (faults w0 !! i) with
                       | Some _ => status e = error_s /\ previous e = PAbsent
                       | None =>
                           status e = success
                           /\ previous e
                              = PDoc (mkDoc (Some (VStr doc.1))
                                        (toJSON <$> doc.2))
                       end)
  /\ (reachable w = true ->
      forall i doc, found "z" filter_z (db w) !! i = Some doc ->
        exists e,
          actions (migrationLog
                     (migration_js true migrationDir TAG now xData w).2)
            !! (List.length xData + 1 + i) = Some e
          /\ action e = update_k /\ status e = dryRun_s
          /\ _id e = Some doc.1
          /\ previous e = PDoc (mkDoc (Some (VStr doc.1)) (toJSON <$> doc.2))).
Proof.
  split; [|split; [|split]].
  - rewrite migration_js_start. set (w0 := World _ _ _ _ _ _ _).
    destruct (reachable w0) eqn:Hr.
    + destruct (runMigration_journaled migrationDir TAG dry xData w0 Hr)
        as (w' & es & E & J & Hall & _).
      rewrite E. simpl. destruct J as (_ & _ & _ & Ha & _).
      rewrite Ha. exact Hall.
    + rewrite (runMigration_unreachable migrationDir TAG dry xData w0 Hr).
      simpl. constructor.
  - intros c doc w0.
    destruct (insertDocument_journaled migrationDir TAG dry c doc w0)
      as (w' & e & E & J & Ha & Hp & _).
    exists e. rewrite E. simpl. destruct J as (_ & _ & _ & Hact & _).
    split; [exact Hact|]. split; [now apply previous_rule_insert|].
    split; [exact Ha | exact Hp].
  - intros c q u w0. destruct dry.
    + destruct (updateDocuments_dry migrationDir TAG c q u w0)
        as (w' & E & J & _).
      eexists. rewrite E. simpl. destruct J as (_ & _ & _ & Hact & _).
      split; [exact Hact|]. split; [|split].
      * apply Forall_fmap, Forall_forall. intros doc _.
        apply previous_rule_dry_update.
      * apply length_fmap.
      * intros i doc Hi. rewrite list_lookup_fmap, Hi. simpl.
        eexists. split; [reflexivity|]. repeat split.
    + destruct (updateDocuments_live migrationDir TAG c q u w0)
        as (w' & E & J & _).
      eexists. rewrite E. simpl. destruct J as (_ & _ & _ & Hact & _).
      split; [exact Hact|]. split; [apply previous_rule_update_entries|].
      split; [apply update_entries_length|].
      intros i doc Hi. rewrite (update_entries_lookup _ _ _ _ _ _ Hi).
      eexists. split; [reflexivity|].
      destruct (mjoin (faults w0 !! i)); repeat split.
  - intros Hr i doc Hi.
    pose proof (migration_js_dry migrationDir TAG now xData w) as H.
    cbv zeta in H. rewrite Hr in H. destruct H as (_ & _ & _ & Ha & _).
    rewrite Ha. unfold dry_entries.
    rewrite lookup_app_r by (rewrite length_fmap; lia).
    rewrite length_fmap.
    replace (List.length xData + 1 + i - List.length xData) with (S i) by lia.
    simpl. rewrite list_lookup_fmap, Hi. simpl.
    eexists. split; [reflexivity|]. repeat split.
Qed.

(** C1 as worded fails: a dry run over a store with one matching document
    in [z] writes an entry with status dryRun that has [previous]. *)
Lemma dry_run_entry_has_previous :
  ~ Forall previous_iff_success
      (actions (migrationLog (migration_js true "migrations" "T1" "now" [] world_z).2)).
Proof.
  pose proof (migration_js_dry "migrations" "T1" "now" [] world_z)
    as (_ & _ & Hrun).
  simpl in Hrun. destruct Hrun as (_ & -> & _).
  intros Hall. rewrite Forall_forall in Hall.
  assert (Hin : (oid_a, ({[ "status" := VStr "old" ]} : gmap string value))
                ∈ found "z" filter_z store_z).
  { apply elem_of_found. split; [apply lookup_singleton_eq|].
    unfold matches, filter_z. simpl.
    rewrite lookup_singleton_eq, bool_decide_eq_true_2; reflexivity. }
  specialize (Hall (dry_update_entry "z" (update_z "T1")
                      (oid_a, {[ "status" := VStr "old" ]}))).
  destruct Hall as [Hall _].
  - unfold dry_entries. rewrite !elem_of_app. right. right.
    apply list_elem_of_fmap. eauto.
  - destruct Hall as [_ Hs]; [discriminate | discriminate Hs].
Qed.

(** ** The undo pass *)

(** The body of the loop never throws; it leaves the journal alone,
    consumes one answer of the store when it sends a request, and brings
    the store to [undo_store] unless that request was rejected. *)
Lemma undo_action_spec a w :
  exists w', undo_action a w = (Ok tt, w')
    /\ same_journal w w'
    /\ next_oid w' = next_oid w
    /\ faults w' = (if sends a then tail (faults w) else faults w)
    /\ db w' = match (if sends a then next_answer (faults w) else None) with
               | Some _ => db w
               | None => undo_store a (db w)
               end.
Proof.
  destruct a as [c act st id docu prev upd err].
  destruct w as [s fs r n fl ml ev].
  unfold undo_action, try_catch, sends, invertible, undo_store, target,
    same_journal; simpl.
  destruct act, st; simpl;
    try (run_to_end; now destruct id as [x|]; [destruct (oid_of x)|]).
  - destruct id as [x|]; simpl.
    + destruct (oid_of x) as [k|] eqn:Ho; simpl.
      * destruct fs as [|[e|] fs]; simpl; run_to_end.
      * run_to_end.
    + destruct fs as [|[e|] fs]; simpl; run_to_end.
  - destruct prev as [| |p]; simpl;
      try (run_to_end; now destruct id as [x|]; [destruct (oid_of x)|]).
    destruct id as [x|]; simpl.
    + destruct (oid_of x) as [k|] eqn:Ho; simpl.
      * destruct fs as [|[e|] fs]; simpl;
          try (run_to_end; fail);
          unfold replaceOne, request, mbind, M_bind, get_db; simpl;
          destruct (s !! (c, k)); simpl;
          try destruct (bool_decide (doc_id p = None \/ doc_id p = Some (VOid k)));
          simpl; run_to_end.
      * run_to_end.
    + destruct fs as [|[e|] fs]; simpl; run_to_end.
Qed.

Lemma undo_action_total a w : (undo_action a w).1 = Ok tt.
Proof. destruct (undo_action_spec a w) as (w' & E & _). now rewrite E. Qed.

Lemma undo_loop_total acts w : (for_of acts undo_action w).1 = Ok tt.
Proof. apply for_of_total, undo_action_total. Qed.

Lemma undo_store_lookup a s ck :
  undo_store a s !! ck = act_shape (shape_of a ck) (s !! ck).
Proof.
  unfold undo_store, shape_of.
  destruct (target a) as [[c k]|] eqn:Ht.
  - destruct (decide ((c, k) = ck)) as [<-|Hne].
    + rewrite (bool_decide_eq_true_2 (Some (c, k) = Some (c, k)) eq_refl).
      simpl. destruct (_ && _).
      * simpl. apply lookup_delete_eq.
      * destruct (_ && _); [|reflexivity].
        destruct (previous a) as [| |p]; try reflexivity.
        destruct (s !! (c, k)) eqn:Hs.
        -- destruct (bool_decide _); simpl; rewrite ?lookup_insert_eq, ?Hs;
             reflexivity.
        -- destruct (bool_decide _); simpl; rewrite Hs; reflexivity.
    + rewrite (bool_decide_eq_false_2 (Some (c, k) = Some ck)) by congruence.
      simpl. destruct (_ && _); [now rewrite lookup_delete_ne|].
      destruct (_ && _); [|reflexivity].
      destruct (previous a) as [| |p]; try reflexivity.
      destruct (s !! (c, k)); [|reflexivity].
      destruct (bool_decide _); [now rewrite lookup_insert_ne | reflexivity].
  - rewrite (bool_decide_eq_false_2 (None = Some ck)) by discriminate.
    reflexivity.
Qed.

Lemma undo_action_frame a w ck :
  target a <> Some ck -> db (undo_action a w).2 !! ck = db w !! ck.
Proof.
  intros Hne. destruct (undo_action_spec a w) as (w' & E & _ & _ & _ & Hdb).
  rewrite E. simpl. rewrite Hdb.
  destruct (if sends a then next_answer (faults w) else None); [reflexivity|].
  rewrite undo_store_lookup. unfold shape_of.
  now rewrite (bool_decide_eq_false_2 (target a = Some ck)).
Qed.

(** The loop as a whole: it ends normally, leaves the journal alone, and
    changes no document that none of its actions addresses. *)
Lemma undo_loop_frame acts w :
  exists w', for_of acts undo_action w = (Ok tt, w')
    /\ same_journal w w'
    /\ (forall ck, Forall (fun a => target a <> Some ck) acts ->
          db w' !! ck = db w !! ck).
Proof.
  revert w. induction acts as [|a acts IH]; intros w.
  - exists w. repeat split.
  - destruct (undo_action_spec a w) as (w1 & E1 & Q1 & _).
    destruct (IH w1) as (w2 & E2 & Q2 & F2).
    exists w2. split; [|split].
    + simpl. erewrite bind_Ok by exact E1. exact E2.
    + eapply same_journal_trans; eassumption.
    + intros ck Hall. inversion Hall as [|? ? Ha Hall']; subst.
      rewrite (F2 ck Hall').
      pose proof (undo_action_frame a w ck Ha) as Hf.
      now rewrite E1 in Hf.
Qed.

(** With a store that serves every request, the loop is the fold of
    [undo_store] over the actions. *)
Lemma undo_loop_served acts w :
  faults w = [] ->
  exists w', for_of acts undo_action w = (Ok tt, w')
    /\ faults w' = []
    /\ db w' = fold_left (fun s a => undo_store a s) acts (db w).
Proof.
  revert w. induction acts as [|a acts IH]; intros w Hf.
  - exists w. repeat split. exact Hf.
  - destruct (undo_action_spec a w) as (w1 & E1 & _ & _ & F1 & D1).
    rewrite Hf in F1, D1. simpl in F1, D1.
    assert (F1' : faults w1 = []) by (now destruct (sends a)).
    assert (D1' : db w1 = undo_store a (db w)) by (now destruct (sends a)).
    destruct (IH w1 F1') as (w2 & E2 & F2 & D2).
    exists w2. split; [|split; [exact F2|]].
    + simpl. erewrite bind_Ok by exact E1. exact E2.
    + rewrite D2, D1'. reflexivity.
Qed.

Lemma act_shape_comp sh2 sh1 x :
  act_shape (comp sh2 sh1) x = act_shape sh2 (act_shape sh1 x).
Proof. destruct sh2, sh1, x; reflexivity. Qed.

Lemma act_shape_idem sh x : act_shape sh (act_shape sh x) = act_shape sh x.
Proof. destruct sh, x; reflexivity. Qed.

(** What a sequence of inverses does to one stored document is again
    one of the three shapes. *)
Lemma undo_fold_lookup acts ck sh s x :
  s !! ck = act_shape sh x ->
  fold_left (fun s a => undo_store a s) acts s !! ck
  = act_shape (fold_left (fun sh a => comp (shape_of a ck) sh) acts sh) x.
Proof.
  revert sh s. induction acts as [|a acts IH]; intros sh s Hs; simpl;
    [exact Hs|].
  apply IH. rewrite undo_store_lookup, act_shape_comp. now rewrite Hs.
Qed.

(** Running the inverses of a journal a second time changes nothing. *)
Lemma undo_fold_idempotent acts s :
  let f := fold_left (fun s a => undo_store a s) acts in
  f (f s) = f s.
Proof.
  intros f. apply map_eq. intros ck. subst f.
  pose proof (undo_fold_lookup acts ck Keep) as H.
  rewrite (H _ (fold_left (fun s a => undo_store a s) acts s !! ck) eq_refl).
  rewrite (H s (s !! ck) eq_refl).
  apply act_shape_idem.
Qed.

(** ** The undo script *)

Lemma undo_js_found migrationDir tag FILTER_ID log w :
  tag <> "" ->
  files w !! FILE_PATH migrationDir (Some tag) = Some log ->
  undo_js migrationDir (Some tag) FILTER_ID w
  = match undoMigration (Some tag) FILTER_ID log w with
    | (Ok _, w') => (0, w')
    | (Throw err, w') => (1, said (Error (Undo_script_failed err)) w')
    end.
Proof.
  intros Ht Hf. unfold undo_js. simpl.
  rewrite bool_decide_eq_false_2 by exact Ht. simpl. now rewrite Hf.
Qed.

Lemma undoMigration_reachable TAG_UNDO FILTER_ID log w :
  reachable w = true ->
  exists w1,
    for_of (candidates FILTER_ID (actions log)) undo_action
      (said (Info (Starting_undo (String_of TAG_UNDO)
                     (if truthy FILTER_ID then FILTER_ID else None)))
            (said Connect w)) = (Ok tt, w1)
    /\ undoMigration TAG_UNDO FILTER_ID log w
       = (Ok tt, said (Info Undo_complete) (said Close w1)).
Proof.
  intros Hr.
  set (w0 := said _ (said Connect w)).
  destruct (undo_loop_frame (candidates FILTER_ID (actions log)) w0)
    as (w1 & E1 & _).
  exists w1. split; [exact E1|].
  unfold undoMigration.
  erewrite bind_Ok by (unfold connect; rewrite Hr; reflexivity).
  erewrite bind_Ok by reflexivity.
  erewrite bind_Ok by exact E1.
  reflexivity.
Qed.

Lemma undoMigration_unreachable TAG_UNDO FILTER_ID log w :
  reachable w = false ->
  undoMigration TAG_UNDO FILTER_ID log w
  = (Throw "MongoServerSelectionError", w).
Proof.
  intros Hr. unfold undoMigration. apply bind_Throw.
  unfold connect. now rewrite Hr.
Qed.

(** C5.  When no journal file exists for the tag, the undo script ends
    with exit code 1 after one line on the error stream that names the
    missing file, and that line is all it did: no connection was
    opened, the store and the answers it owes are as they were. *)
Theorem undo_missing_journal (migrationDir tag : string)
    (FILTER_ID : option string) (w : world) :
  tag <> "" ->
  files w !! FILE_PATH migrationDir (Some tag) = None ->
  let r := undo_js migrationDir (Some tag) FILTER_ID w in
  r.1 = 1
  /\ events r.2
     = events w ++ [Stderr ("Migration file not found: "
                            +:+ FILE_PATH migrationDir (Some tag))]
  /\ db r.2 = db w
  /\ faults r.2 = faults w
  /\ files r.2 = files w.
Proof.
  intros Ht Hf r. subst r. unfold undo_js. simpl.
  rewrite bool_decide_eq_false_2 by exact Ht. simpl. rewrite Hf.
  repeat split.
Qed.

Lemma undo_missing_journal_witness :
  let r := undo_js "migrations" (Some "T9") None world_z in
  r.1 = 1
  /\ events r.2
     = events world_z ++ [Stderr ("Migration file not found: "
                                  +:+ FILE_PATH "migrations" (Some "T9"))]
  /\ db r.2 = db world_z
  /\ faults r.2 = faults world_z
  /\ files r.2 = files world_z.
Proof.
  apply undo_missing_journal; [discriminate | reflexivity].
Defined.

(** C3.  For a journal on disk and a reachable store, the undo script
    ends with code 0, and so does a second invocation after it: every
    action is taken through the loop, whatever the store answers, and an
    inverse that finds no document (a delete or a replace of an absent
    document) does not end the pass.  When the store serves every
    request, the second invocation leaves the store exactly as the first
    one left it. *)
Theorem undo_twice_changes_nothing (migrationDir tag : string)
    (FILTER_ID : option string) (log : MigrationLog) (w : world) :
  tag <> "" ->
  files w !! FILE_PATH migrationDir (Some tag) = Some log ->
  reachable w = true ->
  let r1 := undo_js migrationDir (Some tag) FILTER_ID w in
  let r2 := undo_js migrationDir (Some tag) FILTER_ID r1.2 in
  r1.1 = 0 /\ r2.1 = 0
  /\ (faults w = [] -> db r2.2 = db r1.2).
Proof.
  intros Ht Hf Hr r1 r2.
  set (acts := candidates FILTER_ID (actions log)).
  pose proof (undo_js_found migrationDir tag FILTER_ID log w Ht Hf) as E1.
  destruct (undoMigration_reachable (Some tag) FILTER_ID log w Hr)
    as (w1 & L1 & M1).
  rewrite M1 in E1. fold r1 in E1.
  set (w1' := said (Info Undo_complete) (said Close w1)) in *.
  destruct (undo_loop_frame acts
              (said (Info (Starting_undo (String_of (Some tag))
                             (if truthy FILTER_ID then FILTER_ID else None)))
                    (said Connect w))) as (w1b & L1b & (_ & Hfiles & Hreach) & _).
  fold acts in L1. rewrite L1 in L1b. injection L1b as <-.
  assert (Hf' : files w1' !! FILE_PATH migrationDir (Some tag) = Some log)
    by (simpl; rewrite Hfiles; exact Hf).
  assert (Hr' : reachable w1' = true) by (simpl; rewrite Hreach; exact Hr).
  pose proof (undo_js_found migrationDir tag FILTER_ID log w1' Ht Hf') as E2.
  destruct (undoMigration_reachable (Some tag) FILTER_ID log w1' Hr')
    as (w2 & L2 & M2).
  rewrite M2 in E2.
  assert (Hr2 : r2 = (0, said (Info Undo_complete) (said Close w2))).
  { subst r2. rewrite E1. exact E2. }
  rewrite E1, Hr2. simpl. split; [reflexivity|]. split; [reflexivity|].
  intros Hfaults. fold acts in L2.
  destruct (undo_loop_served acts
              (said (Info (Starting_undo (String_of (Some tag))
                             (if truthy FILTER_ID then FILTER_ID else None)))
                    (said Connect w)) Hfaults) as (u1 & S1 & F1 & D1).
  rewrite L1 in S1. injection S1 as <-.
  destruct (undo_loop_served acts
              (said (Info (Starting_undo (String_of (Some tag))
                             (if truthy FILTER_ID then FILTER_ID else None)))
                    (said Connect w1')) F1) as (u2 & S2 & _ & D2).
  rewrite L2 in S2. injection S2 as <-.
  rewrite D2. simpl. rewrite D1. simpl.
  apply undo_fold_idempotent.
Qed.

Lemma undo_twice_changes_nothing_witness :
  let r1 := undo_js "migrations" (Some "T1") None world_after in
  let r2 := undo_js "migrations" (Some "T1") None r1.2 in
  r1.1 = 0 /\ r2.1 = 0
  /\ (faults world_after = [] -> db r2.2 = db r1.2).
Proof.
  apply (undo_twice_changes_nothing "migrations" "T1" None journal_ex);
    [discriminate | apply lookup_singleton_eq | reflexivity].
Defined.

Lemma candidates_of_id id acts :
  id <> "" ->
  candidates (Some id) acts
  = List.filter (fun a => bool_decide (String_of (_id a) = id)) acts.
Proof.
  intros Hid. unfold candidates. simpl.
  rewrite bool_decide_eq_false_2 by exact Hid. simpl.
  apply List.filter_ext. intros a. apply bool_decide_ext.
  split; congruence.
Qed.

Lemma candidates_target id acts c k :
  id <> "" -> oid_of id <> Some k ->
  Forall (fun a => target a <> Some (c, k)) (candidates (Some id) acts).
Proof.
  intros Hid Hk. rewrite candidates_of_id by exact Hid.
  apply Forall_forall. intros a Ha.
  apply list_elem_of_In, List.filter_In in Ha as [_ Ha].
  apply bool_decide_eq_true_1 in Ha. unfold target.
  destruct (_id a) as [x|]; [|discriminate]. simpl in Ha. subst x.
  destruct (oid_of id) as [k'|]; [|discriminate]. congruence.
Qed.

(** C7.  With an identifier argument [id] (a non-empty string), the
    candidates of the undo pass are the recorded actions whose identifier
    reads [id], in their recorded order, and no other: an action with
    another identifier is not among them.  The pass then changes, in
    any collection, only a document whose identifier is the one [id]
    denotes; every other stored document is as it was, whatever the
    journal holds and whatever the store answers; in particular, for an
    [id] written as the journal writes identifiers, a document under any
    other identifier is as it was.  Without the argument the candidates
    are all the recorded actions. *)
Theorem undo_filter_scope (migrationDir : string) (TAG_UNDO : option string)
    (id : string) (log : MigrationLog) (w : world) :
  id <> "" ->
  candidates (Some id) (actions log)
  = List.filter (fun a => bool_decide (String_of (_id a) = id)) (actions log)
  /\ Forall (fun a => String_of (_id a) = id) (candidates (Some id) (actions log))
  /\ (forall a, a ∈ actions log -> String_of (_id a) <> id ->
        a ∉ candidates (Some id) (actions log))
  /\ candidates None (actions log) = actions log
  /\ (forall c k, oid_of id <> Some k ->
        db (undo_js migrationDir TAG_UNDO (Some id) w).2 !! (c, k)
        = db w !! (c, k))
  /\ (forall c id', oid_of id = Some id -> id' <> id ->
        db (undo_js migrationDir TAG_UNDO (Some id) w).2 !! (c, id')
        = db w !! (c, id')).
Proof.
  intros Hid. split; [now apply candidates_of_id|].
  split; [|split; [|split; [reflexivity|]]].
  3: assert (Hframe : forall c k, oid_of id <> Some k ->
        db (undo_js migrationDir TAG_UNDO (Some id) w).2 !! (c, k)
        = db w !! (c, k));
     [|split; [exact Hframe | intros c id' Ho Hne; apply Hframe; congruence]].
  - rewrite candidates_of_id by exact Hid. apply Forall_forall.
    intros a Ha. apply list_elem_of_In, List.filter_In in Ha as [_ Ha].
    now apply bool_decide_eq_true_1 in Ha.
  - intros a _ Hne Hin. rewrite candidates_of_id in Hin by exact Hid.
    apply list_elem_of_In, List.filter_In in Hin as [_ Ha].
    now apply bool_decide_eq_true_1 in Ha.
  - intros c k Hk. unfold undo_js.
    destruct (negb (truthy TAG_UNDO)); [reflexivity|].
    destruct (files w !! FILE_PATH migrationDir TAG_UNDO) as [data|];
      [|reflexivity].
    destruct (reachable w) eqn:Hr.
    + destruct (undoMigration_reachable TAG_UNDO (Some id) data w Hr)
        as (w1 & L1 & ->).
      simpl.
      destruct (undo_loop_frame (candidates (Some id) (actions data))
                  (said (Info (Starting_undo (String_of TAG_UNDO)
                                 (if truthy (Some id) then Some id else None)))
                        (said Connect w))) as (w1' & L1' & _ & Hframe).
      rewrite L1 in L1'. injection L1' as <-.
      rewrite (Hframe (c, k)); [reflexivity|].
      now apply candidates_target.
    + now rewrite (undoMigration_unreachable TAG_UNDO (Some id) data w Hr).
Qed.

Lemma undo_filter_scope_witness :
  candidates (Some oid_b) (actions journal_ex)
  = List.filter (fun a => bool_decide (String_of (_id a) = oid_b))
      (actions journal_ex)
  /\ Forall (fun a => String_of (_id a) = oid_b)
       (candidates (Some oid_b) (actions journal_ex))
  /\ (forall a, a ∈ actions journal_ex -> String_of (_id a) <> oid_b ->
        a ∉ candidates (Some oid_b) (actions journal_ex))
  /\ candidates None (actions journal_ex) = actions journal_ex
  /\ (forall c k, oid_of oid_b <> Some k ->
        db (undo_js "migrations" (Some "T1") (Some oid_b) world_after).2 !! (c, k)
        = db world_after !! (c, k))
  /\ (forall c id', oid_of oid_b = Some oid_b -> id' <> oid_b ->
        db (undo_js "migrations" (Some "T1") (Some oid_b) world_after).2 !! (c, id')
        = db world_after !! (c, id')).
Proof.
  apply (undo_filter_scope "migrations" (Some "T1") oid_b journal_ex world_after).
  discriminate.
Defined.

(** C10, as the code has it.  An update entry with status success whose
    [previous] is missing or null is passed over by the undo loop: the
    body ends normally and the world is exactly as before, so no request
    went to the store and no line was logged. *)
Theorem undo_skips_update_without_previous (a : ActionRecord) (w : world) :
  action a = update_k -> status a = success ->
  previous a = PAbsent \/ previous a = PNull ->
  undo_action a w = (Ok tt, w).
Proof.
  intros Ha Hs Hp. unfold undo_action, try_catch.
  rewrite Ha, Hs. simpl.
  destruct Hp as [-> | ->]; reflexivity.
Qed.

Lemma undo_skips_update_without_previous_witness :
  undo_action
    {| collection := "z"; action := update_k; status := success;
       _id := Some oid_a; document := None; previous := PNull;
       update := None; error := None |} world_after
  = (Ok tt, world_after).
Proof.
  apply undo_skips_update_without_previous;
    [reflexivity | reflexivity | right; reflexivity].
Defined.

(** C10 as worded fails for an empty [previous]: the empty object is
    truthy, so the loop sends the replacement and the stored document
    loses its fields. *)
Lemma empty_previous_is_replayed :
  action entry_empty_previous = update_k
  /\ status entry_empty_previous = success
  /\ previous entry_empty_previous = PDoc (mkDoc None ∅)
  /\ db world_z !! ("z", oid_a) = Some {[ "status" := VStr "old" ]}
  /\ db (undo_action entry_empty_previous world_z).2 !! ("z", oid_a) = Some ∅
  /\ undo_action entry_empty_previous world_z <> (Ok tt, world_z).
Proof.
  assert (H : db (undo_action entry_empty_previous world_z).2 !! ("z", oid_a)
              = Some ∅).
  { apply (bool_decide_unpack _). vm_compute. exact I. }
  split; [reflexivity|]. split; [reflexivity|]. split; [reflexivity|].
  split; [apply lookup_singleton_eq|]. split; [exact H|].
  intros E. rewrite E in H. simpl in H.
  unfold store_z in H. rewrite lookup_singleton_eq in H.
  apply (inj Some) in H.
  apply (f_equal (fun m : gmap string value => m !! "status")) in H.
  rewrite lookup_singleton_eq, lookup_empty in H. discriminate.
Qed.

(** The request that would restore an updated document is refused: the
    journal holds the identifier inside [previous] as a string, and the
    store does not let a replacement change [_id]. *)
Lemma undo_store_of_journaled_update c u doc s :
  undo_store (success_update_entry c u doc) s = s.
Proof.
  unfold undo_store, target. simpl.
  destruct (oid_of doc.1) as [k|]; [|reflexivity].
  destruct (s !! (c, k)); reflexivity.
Qed.

(** C2, where the code departs from it.  The entry [updateDocuments]
    journals for a document it updated is never replayed into the store:
    whatever the store holds and answers, the undo of that entry leaves
    every document as it is.  On the sample store, a run updates the
    document of [z] and journals its earlier content; the undo script
    then ends with code 0, logs that the undo of that document failed,
    and the document still has the updated fields, not the journaled
    ones. *)
Theorem undo_does_not_restore_update :
  (forall c u doc w, db (undo_action (success_update_entry c u doc) w).2 = db w)
  /\ (let r1 := migration_js false "migrations" "T1" "now" [] world_z in
      let r2 := undo_js "migrations" (Some "T1") None r1.2 in
      r1.1 = 0 /\ r2.1 = 0
      /\ (actions <$> files r1.2 !! FILE_PATH "migrations" (Some "T1"))
         = Some [ insert_entry "y" (with_id (doc_y "T1") (fresh_oid 0)) success
                    (Some (fresh_oid 0)) None;
                  success_update_entry "z" (update_z "T1")
                    (oid_a, {[ "status" := VStr "old" ]}) ]
      /\ db r1.2 !! ("z", oid_a)
         = Some {[ "status" := VStr "new"; "updatedAt" := VDate "T1" ]}
      /\ db r2.2 !! ("z", oid_a)
         = Some {[ "status" := VStr "new"; "updatedAt" := VDate "T1" ]}
      /\ db r2.2 !! ("y", fresh_oid 0) = None
      /\ Error (Undo_failed oid_a "z"
                  "MongoServerError: the (immutable) field '_id' was found to have been altered")
         ∈ events r2.2).
Proof.
  split.
  - intros c u doc w.
    destruct (undo_action_spec (success_update_entry c u doc) w)
      as (w' & E & _ & _ & _ & Hdb).
    rewrite E. simpl. rewrite Hdb, undo_store_of_journaled_update.
    now destruct (if sends _ then _ else _).
  - cbv zeta. apply (bool_decide_unpack _). vm_compute. exact I.
Qed.

(** ** The tag of the first generation *)

Lemma string_map_app f s1 s2 :
  string_map f (s1 +:+ s2) = string_map f s1 +:+ string_map f s2.
Proof.
  induction s1 as [|a s1 IH]; [reflexivity|].
  change (String a s1 +:+ s2) with (String a (s1 +:+ s2)).
  simpl. rewrite IH. reflexivity.
Qed.

Lemma string_map_map f g s :
  string_map g (string_map f s) = string_map (fun a => g (f a)) s.
Proof. induction s as [|a s IH]; simpl; [reflexivity | now rewrite IH]. Qed.

Lemma string_map_fixed f a s :
  f a = a -> string_map f (String a s) = String a (string_map f s).
Proof. intros H. simpl. now rewrite H. Qed.

Lemma string_map_pad f len n acc :
  (forall d, f (Legacy.digit d) = Legacy.digit d) ->
  string_map f (Legacy.pad len n acc) = Legacy.pad len n (string_map f acc).
Proof.
  intros Hf. revert n acc. induction len as [|len IH]; intros n acc;
    [reflexivity|].
  change (Legacy.pad (S len) n acc)
    with (Legacy.pad len (n / 10) (String (Legacy.digit (n mod 10)) acc)).
  rewrite IH, string_map_fixed by apply Hf. reflexivity.
Qed.

(** C8, where the code departs from it.  Decoding a tag does not give
    back the time it was made from: the string the undo script builds
    for [new Date] has a colon where the ISO string of the invocation
    time has its decimal point, for every invocation time. *)
Theorem tag_decoding_is_not_inverse (now : Legacy.instant) :
  Legacy.undo_since (Legacy.TAG now)
  = Legacy.up_to_seconds now +:+ String ":"%char (Legacy.from_milliseconds now)
  /\ Legacy.undo_since (Legacy.TAG now) <> Legacy.toISOString now.
Proof.
  assert (E : Legacy.undo_since (Legacy.TAG now)
              = Legacy.up_to_seconds now
                +:+ String ":"%char (Legacy.from_milliseconds now)).
  { unfold Legacy.undo_since, Legacy.TAG, Legacy.replace_all,
      Legacy.toISOString.
    rewrite string_map_map.
    match goal with |- string_map ?k _ = _ => set (h := k) end.
    assert (Hd : forall d, h (Legacy.digit d) = Legacy.digit d).
    { intros d. do 10 (destruct d as [|d]; [reflexivity|]). reflexivity. }
    rewrite string_map_app. f_equal.
    - unfold Legacy.up_to_seconds.
      repeat (rewrite (string_map_pad h) by exact Hd;
              try rewrite string_map_fixed by reflexivity).
      reflexivity.
    - change (string_map h (String "."%char (Legacy.from_milliseconds now)))
        with (String ":"%char (string_map h (Legacy.from_milliseconds now))).
      f_equal. unfold Legacy.from_milliseconds.
      rewrite (string_map_pad h) by exact Hd. reflexivity. }
  split; [exact E|].
  rewrite E. unfold Legacy.toISOString. intros H.
  apply (inj (String.append _)) in H. discriminate H.
Qed.

(** * Further properties of the scripts *)

(** ** Inserts outside dry run *)

Lemma toJSON_with_id (doc : gmap string value) (k : string) :
  toJSON <$> with_id doc k = <["_id" := VStr k]> (toJSON <$> doc).
Proof. unfold with_id. now rewrite fmap_insert. Qed.

(** The store and the journal after a live insert, by the answer of the
    store. *)
Lemma insertDocument_live (migrationDir TAG c : string)
    (doc : gmap string value) (w : world) :
  let w' := (insertDocument false migrationDir TAG c doc w).2 in
  let k := fresh_oid (next_oid w) in
  faults w' = tail (faults w)
  /\ match next_answer (faults w) with
     | Some err =>
         db w' = db w
         /\ actions (migrationLog w')
            = actions (migrationLog w)
              ++ [insert_entry c (with_id doc k) error_s None (Some err)]
     | None =>
         match db w !! (c, k) with
         | Some _ =>
             db w' = db w
             /\ actions (migrationLog w')
                = actions (migrationLog w)
                  ++ [insert_entry c (with_id doc k) error_s None
                        (Some "MongoServerError: E11000 duplicate key")]
         | None =>
             db w' = <[(c, k) := doc]> (db w)
             /\ actions (migrationLog w')
                = actions (migrationLog w)
                  ++ [insert_entry c (with_id doc k) success (Some k) None]
         end
     end.
Proof.
  destruct w as [s fs rch n fl ml ev]. cbv zeta.
  unfold insertDocument, try_catch, insertOne, gen_oid, request, get_db,
    mbind, M_bind; simpl.
  destruct fs as [|[err|] fs]; simpl;
    try (repeat split; reflexivity);
    destruct (s !! (c, fresh_oid n)); simpl; repeat split; reflexivity.
Qed.

(** X1.  Outside dry run, [insertDocument] of a document without an
    identifier of its own always ends normally and records exactly one
    entry: an insert in that collection, without [previous], whose
    payload is the document with the identifier the driver generated
    for it.  The driver takes the next identifier and the store one
    answer.  When the store rejects the request, or already has a
    document under that identifier, the store is left as it was and the
    entry has status error, the error text and no [_id]; otherwise the
    document is stored under the identifier and the entry has status
    success and that identifier as [_id]. *)
Theorem insert_outcome (migrationDir TAG c : string)
    (doc : gmap string value) (w : world) :
  no_id doc ->
  let r := insertDocument false migrationDir TAG c doc w in
  let k := fresh_oid (next_oid w) in
  r.1 = Ok tt
  /\ next_oid r.2 = S (next_oid w)
  /\ faults r.2 = tail (faults w)
  /\ exists e,
       actions (migrationLog r.2) = actions (migrationLog w) ++ [e]
       /\ collection e = c /\ action e = insert_k
       /\ previous e = PAbsent /\ update e = None
       /\ document e = Some (<["_id" := VStr k]> (toJSON <$> doc))
       /\ match next_answer (faults w) with
          | Some err =>
              db r.2 = db w
              /\ status e = error_s /\ _id e = None /\ error e = Some err
          | None =>
              match db w !! (c, k) with
              | Some _ =>
                  db r.2 = db w
                  /\ status e = error_s /\ _id e = None
                  /\ is_Some (error e)
              | None =>
                  db r.2 = <[(c, k) := doc]> (db w)
                  /\ status e = success /\ _id e = Some k
                  /\ error e = None
              end
          end.
Proof.
  intros _. destruct w as [s fs rch n fl ml ev]. cbv zeta.
  unfold insertDocument, try_catch, insertOne, gen_oid, request, get_db,
    mbind, M_bind; simpl.
  destruct fs as [|[err|] fs]; simpl;
    try destruct (s !! (c, fresh_oid n)); simpl;
    (split; [reflexivity|]); (split; [reflexivity|]);
    (split; [reflexivity|]); eexists; (split; [reflexivity|]);
    simpl; rewrite toJSON_with_id; repeat split; eauto.
Qed.

Lemma insert_outcome_witness :
  let r := insertDocument false "migrations" "T1" "y" (doc_y "T1") world_z in
  r.1 = Ok tt
  /\ db r.2 = <[("y", fresh_oid 0) := doc_y "T1"]> store_z
  /\ exists e,
       actions (migrationLog r.2) = [e]
       /\ status e = success /\ _id e = Some (fresh_oid 0)
       /\ document e
          = Some (<["_id" := VStr (fresh_oid 0)]> (toJSON <$> doc_y "T1")).
Proof.
  pose proof (insert_outcome "migrations" "T1" "y" (doc_y "T1") world_z) as H.
  cbv zeta in H. cbv zeta.
  destruct H as (H1 & _ & _ & e & Ha & _ & _ & _ & _ & Hd & Hm).
  - apply (bool_decide_unpack _). vm_compute. exact I.
  - split; [exact H1|].
    change (next_answer (faults world_z)) with (@None string) in Hm.
    assert (Hl : db world_z !! ("y", fresh_oid (next_oid world_z)) = None)
      by (apply (bool_decide_unpack _); vm_compute; exact I).
    rewrite Hl in Hm. destruct Hm as (Hdb & Hs & Hi & _).
    split; [exact Hdb|]. exists e. repeat split; assumption.
Defined.

(** ** Identifiers *)

Lemma hex_digit_is_hex d : is_hex (hex_digit d) = true.
Proof. do 16 (destruct d as [|d]; [reflexivity|]). reflexivity. Qed.

Lemma hex_digit_lower d : lower_hex (hex_digit d) = hex_digit d.
Proof. do 16 (destruct d as [|d]; [reflexivity|]). reflexivity. Qed.

Lemma hex_of_length len n acc :
  String.length (hex_of len n acc) = len + String.length acc.
Proof.
  revert n acc. induction len as [|len IH]; intros n acc; [reflexivity|].
  change (hex_of (S len) n acc)
    with (hex_of len (n / 16) (String (hex_digit (n mod 16)) acc)).
  rewrite IH. simpl. lia.
Qed.

Lemma hex_of_is_hex len n acc :
  string_forallb is_hex (hex_of len n acc) = string_forallb is_hex acc.
Proof.
  revert n acc. induction len as [|len IH]; intros n acc; [reflexivity|].
  change (hex_of (S len) n acc)
    with (hex_of len (n / 16) (String (hex_digit (n mod 16)) acc)).
  rewrite IH. simpl. now rewrite hex_digit_is_hex.
Qed.

Lemma hex_of_lower len n acc :
  string_map lower_hex (hex_of len n acc)
  = hex_of len n (string_map lower_hex acc).
Proof.
  revert n acc. induction len as [|len IH]; intros n acc; [reflexivity|].
  change (hex_of (S len) n acc)
    with (hex_of len (n / 16) (String (hex_digit (n mod 16)) acc)).
  rewrite IH. simpl. now rewrite hex_digit_lower.
Qed.

(** An identifier the driver generated is read back by [ObjectId] as
    itself. *)
Lemma oid_of_fresh n : oid_of (fresh_oid n) = Some (fresh_oid n).
Proof.
  unfold oid_of, fresh_oid.
  rewrite hex_of_length, hex_of_is_hex, hex_of_lower. reflexivity.
Qed.

(** ** Undoing inserts *)

(** The delete an insert entry is undone by, when the store serves it. *)
Lemma undo_insert_served (a : ActionRecord) (x k : string) (w : world) :
  action a = insert_k -> status a = success ->
  _id a = Some x -> oid_of x = Some k -> faults w = [] ->
  db (undo_action a w).2 = base.delete (collection a, k) (db w).
Proof.
  intros Ha Hs Hi Ho Hf. destruct w as [s fs rch n fl ml ev].
  simpl in Hf. subst fs.
  unfold undo_action, try_catch. rewrite Ha, Hs, Hi. simpl.
  rewrite Ho. reflexivity.
Qed.

(** X2.  The undo of a journaled insert: for an entry of a successful
    insert whose identifier [ObjectId] accepts, the loop body sends one
    delete.  When the store serves it, the document under that
    identifier is gone from that collection, whether it was there or
    not, every other document is as it was, and the line Deleted is
    logged; when the store rejects it, the store is as it was and the
    failure is logged.  In both cases the body ends normally. *)
Theorem undo_of_insert (a : ActionRecord) (x k : string) (w : world) :
  action a = insert_k -> status a = success ->
  _id a = Some x -> oid_of x = Some k ->
  let r := undo_action a w in
  r.1 = Ok tt
  /\ faults r.2 = tail (faults w)
  /\ match next_answer (faults w) with
     | None =>
         db r.2 = base.delete (collection a, k) (db w)
         /\ events r.2 = events w ++ [Info (Deleted x (collection a))]
     | Some err =>
         db r.2 = db w
         /\ events r.2 = events w ++ [Error (Undo_failed x (collection a) err)]
     end.
Proof.
  intros Ha Hs Hi Ho. destruct w as [s fs rch n fl ml ev]. cbv zeta.
  unfold undo_action, try_catch. rewrite Ha, Hs, Hi. simpl.
  rewrite Ho. simpl.
  unfold deleteOne, request, mbind, M_bind. simpl.
  destruct fs as [|[err|] fs]; simpl; repeat split; reflexivity.
Qed.

Lemma undo_of_insert_witness :
  let a := insert_entry "y" (doc_y "T1") success (Some oid_b) None in
  let r := undo_action a world_after in
  r.1 = Ok tt
  /\ faults r.2 = tail (faults world_after)
  /\ match next_answer (faults world_after) with
     | None =>
         db r.2 = base.delete (collection a, oid_b) (db world_after)
         /\ events r.2 = events world_after ++ [Info (Deleted oid_b (collection a))]
     | Some err =>
         db r.2 = db world_after
         /\ events r.2
            = events world_after ++ [Error (Undo_failed oid_b (collection a) err)]
     end.
Proof.
  apply (undo_of_insert (insert_entry "y" (doc_y "T1") success (Some oid_b) None)
           oid_b oid_b world_after); reflexivity.
Defined.

(** X3.  An insert and its undo cancel, for a document that brings no
    identifier of its own: when the store serves every request,
    replaying the entry that [insertDocument] has just journaled brings
    the store back to what it was before the insert, whether the insert
    succeeded or hit a duplicate identifier. *)
Theorem insert_then_undo (migrationDir TAG c : string)
    (doc : gmap string value) (w : world) :
  no_id doc -> faults w = [] ->
  let w1 := (insertDocument false migrationDir TAG c doc w).2 in
  exists e,
    actions (migrationLog w1) = actions (migrationLog w) ++ [e]
    /\ action e = insert_k
    /\ db (undo_action e w1).2 = db w.
Proof.
  intros _ Hf w1.
  pose proof (insertDocument_live migrationDir TAG c doc w) as H.
  cbv zeta in H. fold w1 in H.
  pose proof (oid_of_fresh (next_oid w)) as Hk.
  revert H Hk. generalize (fresh_oid (next_oid w)). intros k H Hk.
  destruct H as (Hf1 & H). rewrite Hf in Hf1, H.
  change (tail []) with (@nil (option string)) in Hf1.
  change (next_answer []) with (@None string) in H. cbv iota beta in H.
  destruct (db w !! (c, k)) eqn:Hl.
  - destruct H as [Hdb Hact]. eexists. split; [exact Hact|].
    split; [reflexivity|].
    destruct (undo_action_spec
                (insert_entry c (with_id doc k) error_s None
                   (Some "MongoServerError: E11000 duplicate key")) w1)
      as (w2 & E & _ & _ & _ & D).
    rewrite E. change ((Ok tt, w2).2) with w2. rewrite D. exact Hdb.
  - destruct H as [Hdb Hact]. eexists. split; [exact Hact|].
    split; [reflexivity|].
    pose proof (undo_insert_served
                  (insert_entry c (with_id doc k) success (Some k) None)
                  k k w1 eq_refl eq_refl eq_refl Hk Hf1) as U.
    rewrite U, Hdb.
    change (collection (insert_entry c (with_id doc k) success (Some k) None))
      with c.
    rewrite delete_insert_eq. now apply delete_id.
Qed.

Lemma insert_then_undo_witness :
  let w1 := (insertDocument false "migrations" "T1" "y" (doc_y "T1") world_z).2 in
  exists e,
    actions (migrationLog w1) = actions (migrationLog world_z) ++ [e]
    /\ action e = insert_k
    /\ db (undo_action e w1).2 = db world_z.
Proof.
  apply (insert_then_undo "migrations" "T1" "y" (doc_y "T1") world_z).
  - apply (bool_decide_unpack _). vm_compute. exact I.
  - reflexivity.
Defined.

(** ** A run as a whole *)

Lemma found_agree c q s s' :
  (forall k, s !! (c, k) = s' !! (c, k)) -> found c q s ≡ₚ found c q s'.
Proof.
  intros Hs. apply NoDup_Permutation.
  - eapply NoDup_fmap_1, found_NoDup.
  - eapply NoDup_fmap_1, found_NoDup.
  - intros [k fs]. rewrite !elem_of_found, Hs. reflexivity.
Qed.

(** An insert, in either mode, records an entry of that document for
    that collection and leaves the other collections alone. *)
Lemma insertDocument_entry migrationDir TAG dry c doc w :
  exists w' e,
    insertDocument dry migrationDir TAG c doc w = (Ok tt, w')
    /\ journaled migrationDir TAG [e] w w'
    /\ insert_record dry c doc e
    /\ (forall c' k, c' <> c -> db w' !! (c', k) = db w !! (c', k)).
Proof.
  destruct (insertDocument_journaled migrationDir TAG dry c doc w)
    as (w' & e & E & J & _ & _ & D).
  exists w', e. split; [exact E|]. split; [exact J|].
  destruct dry.
  - destruct D as [-> (Hd & _)]; [reflexivity|]. split.
    + repeat split.
    + intros c' k _. now rewrite Hd.
  - pose proof (insertDocument_live migrationDir TAG c doc w) as H.
    cbv zeta in H. rewrite E in H.
    change ((Ok tt, w').2) with w' in H.
    revert H. generalize (fresh_oid (next_oid w)). intros k0 H.
    destruct H as (_ & H).
    assert (Ha : actions (migrationLog w') = actions (migrationLog w) ++ [e])
      by (destruct J as (_ & _ & _ & Ha & _); exact Ha).
    assert (Hrec : forall st id err,
               (st = success /\ id = Some k0 /\ err = None
                \/ st = error_s /\ id = None /\ is_Some err) ->
               insert_record false c doc
                 (insert_entry c (with_id doc k0) st id err)).
    { intros st id err Hs. repeat split. exists k0.
      split; [simpl; now rewrite toJSON_with_id | exact Hs]. }
    destruct (next_answer (faults w)) as [err|].
    + destruct H as [Hd Hact]. rewrite Ha in Hact.
      apply app_inv_head in Hact. injection Hact as ->.
      split; [apply Hrec; right; eauto|].
      intros c' k _. now rewrite Hd.
    + destruct (db w !! (c, k0)).
      * destruct H as [Hd Hact]. rewrite Ha in Hact.
        apply app_inv_head in Hact. injection Hact as ->.
        split; [apply Hrec; right; eauto|].
        intros c' k _. now rewrite Hd.
      * destruct H as [Hd Hact]. rewrite Ha in Hact.
        apply app_inv_head in Hact. injection Hact as ->.
        split; [apply Hrec; left; auto|].
        intros c' k Hc. rewrite Hd. apply lookup_insert_ne. congruence.
Qed.

(** The entries of a list of inserts, in either mode. *)
Lemma insertMultipleDocuments_entries migrationDir TAG dry c docs w :
  exists w' es,
    insertMultipleDocuments dry migrationDir TAG c docs w = (Ok tt, w')
    /\ actions (migrationLog w') = actions (migrationLog w) ++ es
    /\ Forall2 (insert_record dry c) docs es
    /\ (forall c' k, c' <> c -> db w' !! (c', k) = db w !! (c', k)).
Proof.
  unfold insertMultipleDocuments. revert w.
  induction docs as [|doc docs IH]; intros w.
  - exists w, []. split; [reflexivity|]. split; [now rewrite app_nil_r|].
    split; [constructor | reflexivity].
  - destruct (insertDocument_entry migrationDir TAG dry c doc w)
      as (w1 & e & E1 & J1 & R1 & F1).
    change (for_of (doc :: docs) (insertDocument dry migrationDir TAG c))
      with (insertDocument dry migrationDir TAG c doc
              ;; for_of docs (insertDocument dry migrationDir TAG c)).
    erewrite bind_Ok by exact E1.
    destruct (IH w1) as (w' & es & E & Ha & Hall & Hfr).
    exists w', (e :: es).
    split; [exact E|]. split; [|split].
    + rewrite Ha. destruct J1 as (_ & _ & _ & Ha1 & _). rewrite Ha1.
      now rewrite <- app_assoc.
    + constructor; [exact R1 | exact Hall].
    + intros c' k Hc. rewrite Hfr, F1 by exact Hc. reflexivity.
Qed.

(** X4.  [insertMultipleDocuments], in either mode and whatever the
    store answers, ends normally after one insert per document: it
    records one insert entry per document, in the order of the list, so
    a failed insert does not stop the ones after it, and documents of
    other collections are not touched.  Each entry is for that
    collection and has no [previous].  In a dry run it has status dryRun
    and the document as payload.  Outside dry run, for documents that
    bring no identifier of their own, the payload is the document with
    the identifier the driver wrote into it; the entry has status
    success and that identifier as [_id], or status error, an error text
    and no [_id]. *)
Theorem insert_multiple_records_each (dry : bool)
    (migrationDir TAG c : string) (docs : list (gmap string value))
    (w : world) :
  (dry = false -> Forall no_id docs) ->
  let r := insertMultipleDocuments dry migrationDir TAG c docs w in
  r.1 = Ok tt
  /\ (exists es,
        actions (migrationLog r.2) = actions (migrationLog w) ++ es
        /\ Forall2 (insert_record dry c) docs es)
  /\ (forall c' k, c' <> c -> db r.2 !! (c', k) = db w !! (c', k)).
Proof.
  intros _. cbv zeta.
  destruct (insertMultipleDocuments_entries migrationDir TAG dry c docs w)
    as (w' & es & E & Ha & Hall & Hfr).
  rewrite E. split; [reflexivity|]. split; [|exact Hfr].
  exists es. split; [exact Ha | exact Hall].
Qed.

Lemma insert_multiple_records_each_witness :
  let r := insertMultipleDocuments false "migrations" "T1" "x"
             [doc_y "T0"; doc_y "T1"] world_z in
  r.1 = Ok tt
  /\ (exists es,
        actions (migrationLog r.2) = actions (migrationLog world_z) ++ es
        /\ Forall2 (insert_record false "x") [doc_y "T0"; doc_y "T1"] es)
  /\ (forall c' k, c' <> "x" -> db r.2 !! (c', k) = db world_z !! (c', k)).
Proof.
  apply (insert_multiple_records_each false "migrations" "T1" "x"
           [doc_y "T0"; doc_y "T1"] world_z).
  intros _. repeat constructor.
Defined.

Lemma update_entries_kind c u docs fs :
  Forall (fun e => action e = update_k /\ collection e = c)
    (update_entries c u docs fs).
Proof.
  revert fs. induction docs as [|doc docs IH]; intros fs; simpl;
    constructor; auto.
  now destruct (next_answer fs).
Qed.

(** The entries of a run against a reachable store, in either mode. *)
Lemma runMigration_entries migrationDir TAG dry xData w :
  reachable w = true ->
  exists w' es_x e_y es_z,
    runMigration dry migrationDir TAG xData w = (Ok tt, w')
    /\ journaled migrationDir TAG (es_x ++ [e_y] ++ es_z) w w'
    /\ Forall2 (insert_record dry "x") xData es_x
    /\ insert_record dry "y" (doc_y TAG) e_y
    /\ List.length es_z = List.length (found "z" filter_z (db w))
    /\ Forall (fun e => action e = update_k /\ collection e = "z") es_z.
Proof.
  intros Hr. unfold runMigration.
  erewrite bind_Ok by (unfold connect; rewrite Hr; reflexivity).
  erewrite bind_Ok by reflexivity. erewrite bind_Ok by reflexivity.
  set (w0 := said (Info (Tag_line TAG))
               (said (Info (Starting_migration dry)) (said Connect w))).
  assert (J0 : journaled migrationDir TAG [] w w0)
    by (apply same_journal_journaled; repeat split).
  destruct (insertMultipleDocuments_journaled migrationDir TAG dry "x" xData w0)
    as (w1 & es1 & E1 & J1 & _ & _).
  destruct (insertMultipleDocuments_entries migrationDir TAG dry "x" xData w0)
    as (w1' & es & E1' & Ha & Hall & F1).
  rewrite E1 in E1'. injection E1' as <-.
  assert (es = es1) as ->.
  { destruct J1 as (_ & _ & _ & Ha1 & _). rewrite Ha1 in Ha.
    now apply app_inv_head in Ha. }
  erewrite bind_Ok by exact E1.
  destruct (insertDocument_entry migrationDir TAG dry "y" (doc_y TAG) w1)
    as (w2 & e_y & E2 & J2 & R2 & F2).
  erewrite bind_Ok by exact E2.
  assert (Hz : forall k, db w2 !! ("z", k) = db w !! ("z", k)).
  { intros k. rewrite F2, F1 by discriminate. reflexivity. }
  assert (Hlen : List.length (found "z" filter_z (db w2))
                 = List.length (found "z" filter_z (db w)))
    by (apply Permutation_length, found_agree, Hz).
  assert (J02 : journaled migrationDir TAG (es1 ++ [e_y]) w w2).
  { apply (journaled_trans migrationDir TAG [] _ w w0 w2); [exact J0|].
    eapply journaled_trans; eassumption. }
  destruct dry.
  - destruct (updateDocuments_dry migrationDir TAG "z" filter_z (update_z TAG) w2)
      as (w3 & E3 & J3 & _).
    erewrite bind_Ok by exact E3.
    exists (said (Info Migration_complete) (said Close w3)), es1, e_y,
      (dry_update_entry "z" (update_z TAG) <$> found "z" filter_z (db w2)).
    split; [reflexivity|]. split; [|split; [exact Hall|split; [exact R2|split]]].
    + apply (journaled_then_quiet migrationDir TAG _ w w3); [|repeat split].
      rewrite app_assoc. eapply journaled_trans; [exact J02 | exact J3].
    + now rewrite length_fmap.
    + apply Forall_fmap, Forall_forall. intros doc _. split; reflexivity.
  - destruct (updateDocuments_live migrationDir TAG "z" filter_z (update_z TAG) w2)
      as (w3 & E3 & J3 & _).
    erewrite bind_Ok by exact E3.
    exists (said (Info Migration_complete) (said Close w3)), es1, e_y,
      (update_entries "z" (update_z TAG)
         (found "z" filter_z (db w2)) (faults w2)).
    split; [reflexivity|]. split; [|split; [exact Hall|split; [exact R2|split]]].
    + apply (journaled_then_quiet migrationDir TAG _ w w3); [|repeat split].
      rewrite app_assoc. eapply journaled_trans; [exact J02 | exact J3].
    + now rewrite update_entries_length.
    + apply update_entries_kind.
Qed.

(** X5.  A run of the migration script that ends with code 0, in
    either mode, whatever the store has answered to the single
    requests, has recorded every attempt (outside dry run for data
    documents that bring no identifier of their own).  Its journal
    carries the tag and the creation time of the run and one entry per
    document it set out to touch, in the order of the plan: one insert
    in [x] per document of the data file, the insert in [y], one update
    in [z] per document that matched the filter when the run began.
    The journal file of the tag holds exactly this log, and no other
    file of the journal directory has changed. *)
Theorem run_records_every_attempt (dry : bool) (migrationDir TAG now : string)
    (xData : list (gmap string value)) (w : world) :
  (migration_js dry migrationDir TAG now xData w).1 = 0 ->
  (dry = false -> Forall no_id xData) ->
  let r := migration_js dry migrationDir TAG now xData w in
  tag (migrationLog r.2) = TAG
  /\ createdAt (migrationLog r.2) = now
  /\ (exists es_x e_y es_z,
        actions (migrationLog r.2) = es_x ++ [e_y] ++ es_z
        /\ Forall2 (insert_record dry "x") xData es_x
        /\ insert_record dry "y" (doc_y TAG) e_y
        /\ List.length es_z = List.length (found "z" filter_z (db w))
        /\ Forall (fun e => action e = update_k /\ collection e = "z") es_z)
  /\ files r.2 !! MIGRATION_FILE migrationDir TAG = Some (migrationLog r.2)
  /\ (forall p, p <> MIGRATION_FILE migrationDir TAG ->
        files r.2 !! p = files w !! p).
Proof.
  intros H0 _ r. subst r. revert H0. rewrite migration_js_start.
  set (w0 := World _ _ _ _ _ _ _).
  assert (Hr0 : reachable w0 = reachable w) by reflexivity.
  destruct (reachable w0) eqn:Hr.
  - intros _.
    destruct (runMigration_entries migrationDir TAG dry xData w0 Hr)
      as (w' & es_x & e_y & es_z & E & J & Hx & Hy & Hz & Hk).
    rewrite E. simpl.
    destruct J as (_ & Ht & Hc & Ha & Hp & Hq).
    split; [exact Ht|]. split; [exact Hc|].
    split; [|split; [|exact Hp]].
    + exists es_x, e_y, es_z. auto.
    + rewrite Hq. now destruct es_x.
  - rewrite (runMigration_unreachable migrationDir TAG dry xData w0 Hr).
    discriminate.
Qed.

Lemma run_records_every_attempt_witness :
  let r := migration_js false "migrations" "T1" "now" [doc_y "T0"] world_z in
  tag (migrationLog r.2) = "T1"
  /\ createdAt (migrationLog r.2) = "now"
  /\ (exists es_x e_y es_z,
        actions (migrationLog r.2) = es_x ++ [e_y] ++ es_z
        /\ Forall2 (insert_record false "x") [doc_y "T0"] es_x
        /\ insert_record false "y" (doc_y "T1") e_y
        /\ List.length es_z = List.length (found "z" filter_z (db world_z))
        /\ Forall (fun e => action e = update_k /\ collection e = "z") es_z)
  /\ files r.2 !! MIGRATION_FILE "migrations" "T1" = Some (migrationLog r.2)
  /\ (forall p, p <> MIGRATION_FILE "migrations" "T1" ->
        files r.2 !! p = files world_z !! p).
Proof.
  apply (run_records_every_attempt false "migrations" "T1" "now"
           [doc_y "T0"] world_z).
  - apply (bool_decide_unpack _). vm_compute. exact I.
  - intros _. repeat constructor.
Defined.

(** X6.  When the store cannot be reached the migration script ends
    with code 1 in either mode, and all it has done is log the failure:
    the store, the answers it owes and the files are as they were and
    the journal of the run is empty and was not written. *)
Theorem migration_unreachable (dry : bool) (migrationDir TAG now : string)
    (xData : list (gmap string value)) (w : world) :
  reachable w = false ->
  let r := migration_js dry migrationDir TAG now xData w in
  r.1 = 1
  /\ db r.2 = db w /\ faults r.2 = faults w /\ files r.2 = files w
  /\ actions (migrationLog r.2) = []
  /\ events r.2
     = events w ++ [Error (Migration_failed "MongoServerSelectionError")].
Proof.
  intros Hr r. subst r. rewrite migration_js_start.
  set (w0 := World _ _ _ _ _ _ _).
  rewrite (runMigration_unreachable migrationDir TAG dry xData w0 Hr).
  repeat split.
Qed.

Lemma migration_unreachable_witness :
  let w := World store_z [] false 0 ∅ empty_log [] in
  let r := migration_js false "migrations" "T1" "now" [] w in
  r.1 = 1
  /\ db r.2 = db w /\ faults r.2 = faults w /\ files r.2 = files w
  /\ actions (migrationLog r.2) = []
  /\ events r.2
     = events w ++ [Error (Migration_failed "MongoServerSelectionError")].
Proof.
  apply (migration_unreachable false "migrations" "T1" "now" []
           (World store_z [] false 0 ∅ empty_log [])).
  reflexivity.
Defined.

(** ** The undo script as a whole *)

(** X7.  The exit code of the undo script when the journal file of the
    tag holds a journal as a run writes it, an object with its list of
    entries: the code is 0 exactly when a tag was given and the store
    can be reached, whatever the journal holds and whatever the store
    answers to the single inverse operations, and 1 otherwise.  The
    script never writes a file of the journal directory: the journal is
    only read.  When it ends with code 1 it has done nothing but emit
    one line (the usage, or the failure to connect): the store and the
    answers it owes are as they were and no connection was opened. *)
Theorem undo_exit_code (migrationDir : string)
    (TAG_UNDO FILTER_ID : option string) (data : MigrationLog) (w : world) :
  files w !! FILE_PATH migrationDir TAG_UNDO = Some data ->
  let r := undo_js migrationDir TAG_UNDO FILTER_ID w in
  r.1 = (if truthy TAG_UNDO && reachable w then 0 else 1)
  /\ files r.2 = files w
  /\ (r.1 = 1 ->
      db r.2 = db w /\ faults r.2 = faults w
      /\ exists e, e <> Connect /\ events r.2 = events w ++ [e]).
Proof.
  intros Hf. cbv zeta. unfold undo_js.
  destruct (truthy TAG_UNDO); simpl.
  2: { repeat split. eexists. split; [|reflexivity]. discriminate. }
  rewrite Hf.
  destruct (reachable w) eqn:Hr.
  - destruct (undoMigration_reachable TAG_UNDO FILTER_ID data w Hr)
      as (w1 & L1 & ->).
    destruct (undo_loop_frame (candidates FILTER_ID (actions data))
                (said (Info (Starting_undo (String_of TAG_UNDO)
                               (if truthy FILTER_ID then FILTER_ID else None)))
                      (said Connect w))) as (w1' & L1' & (Hm & Hfl & _) & _).
    rewrite L1 in L1'. injection L1' as <-. simpl in *.
    split; [reflexivity|]. split; [exact Hfl | discriminate].
  - rewrite (undoMigration_unreachable TAG_UNDO FILTER_ID data w Hr). simpl.
    repeat split. eexists. split; [|reflexivity]. discriminate.
Qed.

Lemma undo_exit_code_witness :
  let r := undo_js "migrations" (Some "T1") None world_after in
  r.1 = 0 /\ files r.2 = files world_after.
Proof.
  pose proof (undo_exit_code "migrations" (Some "T1") None journal_ex
                world_after) as H.
  cbv zeta in H. cbv zeta.
  destruct H as (H0 & H1 & _).
  - apply (bool_decide_unpack _). vm_compute. exact I.
  - split; assumption.
Defined.

(** ** A run and its undo *)

Lemma journal_shape_app acts1 acts2 ck :
  journal_shape (acts1 ++ acts2) ck
  = fold_left (fun sh a => comp (shape_of a ck) sh) acts2
      (journal_shape acts1 ck).
Proof. unfold journal_shape. apply fold_left_app. Qed.

Lemma journal_shape_keep acts1 acts2 ck :
  Forall (fun a => shape_of a ck = Keep) acts2 ->
  journal_shape (acts1 ++ acts2) ck = journal_shape acts1 ck.
Proof.
  intros Hall. rewrite journal_shape_app.
  generalize (journal_shape acts1 ck).
  induction Hall as [|a acts2 Ha _ IH]; intros sh; simpl; [reflexivity|].
  rewrite Ha. simpl. apply IH.
Qed.

Lemma act_shape_None sh : act_shape sh None = None.
Proof. now destruct sh. Qed.

(** The entry of an update is replayed as nothing at all. *)
Lemma shape_of_journaled_update c u doc ck :
  shape_of (success_update_entry c u doc) ck = Keep.
Proof.
  unfold shape_of. destruct (bool_decide _); reflexivity.
Qed.

Lemma update_entries_served c u docs :
  update_entries c u docs [] = success_update_entry c u <$> docs.
Proof. induction docs as [|doc docs IH]; simpl; [|rewrite IH]; reflexivity. Qed.

Lemma insertDocument_undoable migrationDir TAG c doc s0 w :
  c <> "z" -> undoable s0 w ->
  undoable s0 (insertDocument false migrationDir TAG c doc w).2.
Proof.
  intros Hc [Hf Hinv].
  pose proof (insertDocument_live migrationDir TAG c doc w) as H.
  cbv zeta in H.
  pose proof (oid_of_fresh (next_oid w)) as Hk.
  revert H Hk. generalize (fresh_oid (next_oid w)). intros k0 H Hk.
  destruct H as (Hf1 & H). rewrite Hf in Hf1, H.
  change (next_answer []) with (@None string) in H. cbv iota beta in H.
  split; [exact Hf1|]. intros c' k' Hc'.
  destruct (db w !! (c, k0)) eqn:Hl; destruct H as [-> ->].
  - rewrite journal_shape_keep by (repeat constructor). now apply Hinv.
  - rewrite journal_shape_app. simpl.
    destruct (decide ((c', k') = (c, k0))) as [[= -> ->]|Hne].
    + unfold shape_of, target. simpl. rewrite Hk.
      rewrite (bool_decide_eq_true_2 (Some (c, k0) = Some (c, k0)) eq_refl).
      simpl. rewrite <- (Hinv c k0 Hc), Hl. now rewrite act_shape_None.
    + rewrite lookup_insert_ne by congruence.
      unfold shape_of at 1. unfold target. simpl. rewrite Hk.
      rewrite (bool_decide_eq_false_2 (Some (c, k0) = Some (c', k')))
        by congruence.
      simpl. now apply Hinv.
Qed.

Lemma insertMultipleDocuments_undoable migrationDir TAG c docs s0 w :
  c <> "z" -> undoable s0 w ->
  undoable s0 (insertMultipleDocuments false migrationDir TAG c docs w).2.
Proof.
  intros Hc. unfold insertMultipleDocuments. revert w.
  induction docs as [|doc docs IH]; intros w Hu; [exact Hu|].
  destruct (insertDocument_entry migrationDir TAG false c doc w)
    as (w1 & e & E1 & _).
  pose proof (insertDocument_undoable migrationDir TAG c doc s0 w Hc Hu) as H1.
  rewrite E1 in H1.
  change (for_of (doc :: docs) (insertDocument false migrationDir TAG c))
    with (insertDocument false migrationDir TAG c doc
            ;; for_of docs (insertDocument false migrationDir TAG c)).
  erewrite bind_Ok by exact E1. now apply IH.
Qed.

Lemma updateDocuments_undoable migrationDir TAG q u s0 w :
  undoable s0 w ->
  undoable s0 (updateDocuments false migrationDir TAG "z" q u w).2.
Proof.
  intros [Hf Hinv].
  destruct (updateDocuments_live migrationDir TAG "z" q u w)
    as (w' & E & J & Hf' & Hdb & _).
  rewrite E. change ((Ok tt, w').2) with w'.
  rewrite Hf in Hf', J, Hdb. rewrite drop_nil in Hf'.
  split; [exact Hf'|]. intros c k Hc.
  destruct J as (_ & _ & _ & -> & _).
  rewrite journal_shape_keep.
  - rewrite Hdb, apply_updates_other by (intros ->; contradiction).
    now apply Hinv.
  - rewrite update_entries_served. apply Forall_fmap, Forall_forall.
    intros doc _. apply shape_of_journaled_update.
Qed.

(** X8.  A run and its undo, with a reachable store that serves every
    request and data documents that bring no identifier of their own:
    after the migration script (outside dry run) and the undo script
    for its tag, every collection other than [z] holds exactly the
    documents it held before the run, with the fields they had.  The
    documents the run inserted in [x] and [y] are gone and no other
    document of these or any further collection was lost or changed. *)
Theorem run_then_undo_removes_inserts (migrationDir TAG now : string)
    (xData : list (gmap string value)) (w : world) :
  TAG <> "" -> reachable w = true -> faults w = [] -> Forall no_id xData ->
  let r1 := migration_js false migrationDir TAG now xData w in
  let r2 := undo_js migrationDir (Some TAG) None r1.2 in
  forall c k, c <> "z" -> db r2.2 !! (c, k) = db w !! (c, k).
Proof.
  intros Ht Hr Hf _ r1 r2.
  (* the run *)
  assert (Hrun : exists w1,
             r1 = (0, w1) /\ undoable (db w) w1 /\ reachable w1 = true
             /\ files w1 !! FILE_PATH migrationDir (Some TAG)
                = Some (migrationLog w1)).
  { subst r1. rewrite migration_js_start. set (w0 := World _ _ _ _ _ _ _).
    destruct (runMigration_entries migrationDir TAG false xData w0 Hr)
      as (w1 & es_x & e_y & es_z & E & J & _).
    rewrite E. exists w1. split; [reflexivity|].
    destruct J as (Hreach & _ & _ & _ & _ & Hq).
    split; [|split; [now rewrite Hreach|]].
    - revert E. unfold runMigration.
      assert (Hr0 : reachable w0 = true) by exact Hr.
      erewrite bind_Ok by (unfold connect; rewrite Hr0; reflexivity).
      erewrite bind_Ok by reflexivity. erewrite bind_Ok by reflexivity.
      set (wa := said _ (said _ (said Connect w0))).
      assert (Ua : undoable (db w) wa).
      { split; [exact Hf|]. intros c k _. reflexivity. }
      pose proof (insertMultipleDocuments_undoable migrationDir TAG "x" xData
                    (db w) wa ltac:(discriminate) Ua) as Ub.
      destruct (insertMultipleDocuments_journaled migrationDir TAG false "x"
                  xData wa) as (wb & ? & Eb & _).
      rewrite Eb in Ub. erewrite bind_Ok by exact Eb.
      pose proof (insertDocument_undoable migrationDir TAG "y" (doc_y TAG)
                    (db w) wb ltac:(discriminate) Ub) as Uc.
      destruct (insertDocument_entry migrationDir TAG false "y" (doc_y TAG) wb)
        as (wc & ? & Ec & _).
      rewrite Ec in Uc. erewrite bind_Ok by exact Ec.
      pose proof (updateDocuments_undoable migrationDir TAG filter_z
                    (update_z TAG) (db w) wc Uc) as Ud.
      destruct (updateDocuments_live migrationDir TAG "z" filter_z
                  (update_z TAG) wc) as (wd & Ed & _).
      rewrite Ed in Ud. erewrite bind_Ok by exact Ed.
      intros [= <-]. exact Ud.
    - change (FILE_PATH migrationDir (Some TAG))
        with (MIGRATION_FILE migrationDir TAG).
      rewrite Hq. now destruct es_x. }
  destruct Hrun as (w1 & E1 & [Hf1 Hinv] & Hr1 & Hfile).
  (* the undo *)
  pose proof (undo_js_found migrationDir TAG None (migrationLog w1) w1 Ht Hfile)
    as E2.
  destruct (undoMigration_reachable (Some TAG) None (migrationLog w1) w1 Hr1)
    as (w2 & L2 & M2).
  rewrite M2 in E2.
  assert (Hr2 : r2 = (0, said (Info Undo_complete) (said Close w2)))
    by (subst r2; rewrite E1; exact E2).
  rewrite Hr2. intros c k Hc. simpl.
  destruct (undo_loop_served (candidates None (actions (migrationLog w1)))
              (said (Info (Starting_undo (String_of (Some TAG)) None))
                    (said Connect w1)) Hf1) as (w2' & S2 & _ & D2).
  change (if truthy None then None else None) with (@None string) in L2.
  rewrite L2 in S2. injection S2 as <-.
  rewrite D2. simpl.
  rewrite (undo_fold_lookup _ (c, k) Keep (db w1) (db w1 !! (c, k)) eq_refl).
  now apply Hinv.
Qed.

Lemma run_then_undo_removes_inserts_witness :
  let r1 := migration_js false "migrations" "T1" "now" [doc_y "T0"] world_z in
  let r2 := undo_js "migrations" (Some "T1") None r1.2 in
  db r1.2 !! ("x", fresh_oid 0) = Some (doc_y "T0")
  /\ db r1.2 !! ("y", fresh_oid 1) = Some (doc_y "T1")
  /\ db r2.2 !! ("x", fresh_oid 0) = None
  /\ db r2.2 !! ("y", fresh_oid 1) = None.
Proof.
  pose proof (run_then_undo_removes_inserts "migrations" "T1" "now"
                [doc_y "T0"] world_z ltac:(discriminate) eq_refl eq_refl
                ltac:(repeat constructor)) as H.
  cbv zeta in H. cbv zeta.
  split; [apply (bool_decide_unpack _); vm_compute; exact I|].
  split; [apply (bool_decide_unpack _); vm_compute; exact I|].
  split; (rewrite H by discriminate;
          apply (bool_decide_unpack _); vm_compute; exact I).
Defined.

(** ** The tag *)

Lemma pad_app len n acc s :
  Legacy.pad len n acc +:+ s = Legacy.pad len n (acc +:+ s).
Proof.
  revert n acc. induction len as [|len IH]; intros n acc; [reflexivity|].
  change (Legacy.pad (S len) n acc)
    with (Legacy.pad len (n / 10) (String (Legacy.digit (n mod 10)) acc)).
  rewrite IH. reflexivity.
Qed.

Lemma pad_length len n acc :
  String.length (Legacy.pad len n acc) = len + String.length acc.
Proof.
  revert n acc. induction len as [|len IH]; intros n acc; [reflexivity|].
  change (Legacy.pad (S len) n acc)
    with (Legacy.pad len (n / 10) (String (Legacy.digit (n mod 10)) acc)).
  rewrite IH. simpl. lia.
Qed.

Lemma pad_forallb p len n acc :
  (forall d, p (Legacy.digit d) = true) ->
  string_forallb p (Legacy.pad len n acc) = string_forallb p acc.
Proof.
  intros Hp. revert n acc. induction len as [|len IH]; intros n acc;
    [reflexivity|].
  change (Legacy.pad (S len) n acc)
    with (Legacy.pad len (n / 10) (String (Legacy.digit (n mod 10)) acc)).
  rewrite IH. simpl. now rewrite Hp.
Qed.

Lemma digit_inj a b :
  a < 10 -> b < 10 -> Legacy.digit a = Legacy.digit b -> a = b.
Proof.
  intros Ha Hb.
  do 10 (destruct a as [|a];
         [do 10 (destruct b as [|b]; [reflexivity || discriminate|]); lia|]).
  lia.
Qed.

Lemma pad_inj len n m acc acc' :
  n < 10 ^ len -> m < 10 ^ len ->
  Legacy.pad len n acc = Legacy.pad len m acc' -> n = m /\ acc = acc'.
Proof.
  revert n m acc acc'. induction len as [|len IH]; intros n m acc acc' Hn Hm.
  - simpl in *. intros ->. split; [lia | reflexivity].
  - change (Legacy.pad (S len) n acc)
      with (Legacy.pad len (n / 10) (String (Legacy.digit (n mod 10)) acc)).
    change (Legacy.pad (S len) m acc')
      with (Legacy.pad len (m / 10) (String (Legacy.digit (m mod 10)) acc')).
    intros H.
    assert (Hn' : n / 10 < 10 ^ len)
      by (apply Nat.Div0.div_lt_upper_bound; rewrite Nat.pow_succ_r' in Hn; lia).
    assert (Hm' : m / 10 < 10 ^ len)
      by (apply Nat.Div0.div_lt_upper_bound; rewrite Nat.pow_succ_r' in Hm; lia).
    destruct (IH _ _ _ _ Hn' Hm' H) as [Hq Hs].
    pose proof (f_equal (fun s => match s with
                                  | String a _ => a
                                  | EmptyString => "0"%char
                                  end) Hs) as Hd.
    pose proof (f_equal (fun s => match s with
                                  | String _ r => r
                                  | EmptyString => EmptyString
                                  end) Hs) as Hacc.
    cbv beta iota in Hd, Hacc.
    apply digit_inj in Hd; [|apply Nat.mod_upper_bound; lia ..].
    split; [|exact Hacc].
    rewrite (Nat.div_mod_eq n 10), (Nat.div_mod_eq m 10). congruence.
Qed.

Lemma String_tail a b s t : String a s = String b t -> s = t.
Proof. now intros [= _ ->]. Qed.

(** The tag written out: the ISO string with an underscore for each
    colon and for the decimal point. *)
Lemma TAG_form now :
  Legacy.TAG now
  = Legacy.pad 4 (Legacy.year now)
      (String "-" (Legacy.pad 2 (Legacy.month now)
      (String "-" (Legacy.pad 2 (Legacy.day now)
      (String "T" (Legacy.pad 2 (Legacy.hours now)
      (String "_" (Legacy.pad 2 (Legacy.minutes now)
      (String "_" (Legacy.pad 2 (Legacy.seconds now)
      (String "_" (Legacy.pad 3 (Legacy.milliseconds now) "Z"))))))))))))%char.
Proof.
  unfold Legacy.TAG, Legacy.replace_all, Legacy.toISOString,
    Legacy.up_to_seconds, Legacy.from_milliseconds.
  match goal with |- string_map ?k _ = _ => set (h := k) end.
  assert (Hd : forall d, h (Legacy.digit d) = Legacy.digit d).
  { intros d. do 10 (destruct d as [|d]; [reflexivity|]). reflexivity. }
  repeat (rewrite pad_app;
          change (String ?a ?s +:+ ?t) with (String a (s +:+ t))).
  change ("" +:+ ?t) with t.
  repeat (rewrite (string_map_pad h) by exact Hd;
          match goal with
          | |- context [string_map h (String ?a ?s)] =>
              change (string_map h (String a s))
                with (String (h a) (string_map h s))
          end).
  reflexivity.
Qed.

(** X9.  The tag of a run started in a year of at most four digits is
    safe as part of a file or collection name: it has 24 characters and
    none of them is a colon, a point, a slash or a blank. *)
Theorem tag_is_name_safe (now : Legacy.instant) :
  in_range now ->
  String.length (Legacy.TAG now) = 24
  /\ string_forallb
       (fun a => negb (bool_decide (a = ":"%char) || bool_decide (a = "."%char)
                       || bool_decide (a = "/"%char) || bool_decide (a = " "%char)))
       (Legacy.TAG now) = true.
Proof.
  intros _. rewrite TAG_form. split.
  - repeat (rewrite pad_length; simpl String.length). reflexivity.
  - set (p := fun a : ascii => _).
    assert (Hp : forall d, p (Legacy.digit d) = true).
    { intros d. do 10 (destruct d as [|d]; [reflexivity|]). reflexivity. }
    repeat (rewrite (pad_forallb p) by exact Hp;
            match goal with
            | |- context [string_forallb p (String ?a ?s)] =>
                change (string_forallb p (String a s))
                  with (p a && string_forallb p s)
            end;
            match goal with
            | |- context [p ?a && _] => change (p a) with true
            end;
            rewrite andb_true_l).
    reflexivity.
Qed.

Lemma tag_is_name_safe_witness :
  String.length (Legacy.TAG noon) = 24
  /\ string_forallb
       (fun a => negb (bool_decide (a = ":"%char) || bool_decide (a = "."%char)
                       || bool_decide (a = "/"%char) || bool_decide (a = " "%char)))
       (Legacy.TAG noon) = true.
Proof.
  apply (tag_is_name_safe noon). unfold in_range, noon. simpl.
  repeat split; lia.
Defined.

(** X10.  Two runs started at different times (to the millisecond) have
    different tags, hence different journal files and backup
    collections. *)
Theorem tag_is_unique (t1 t2 : Legacy.instant) :
  in_range t1 -> in_range t2 ->
  Legacy.TAG t1 = Legacy.TAG t2 -> t1 = t2.
Proof.
  intros (Hy1 & Hmo1 & Hd1 & Hh1 & Hmi1 & Hs1 & Hms1)
         (Hy2 & Hmo2 & Hd2 & Hh2 & Hmi2 & Hs2 & Hms2).
  rewrite !TAG_form. intros H.
  apply pad_inj in H as [Ey H]; [|assumption ..]. apply String_tail in H.
  apply pad_inj in H as [Emo H]; [|assumption ..]. apply String_tail in H.
  apply pad_inj in H as [Ed H]; [|assumption ..]. apply String_tail in H.
  apply pad_inj in H as [Eh H]; [|assumption ..]. apply String_tail in H.
  apply pad_inj in H as [Emi H]; [|assumption ..]. apply String_tail in H.
  apply pad_inj in H as [Es H]; [|assumption ..]. apply String_tail in H.
  apply pad_inj in H as [Ems _]; [|assumption ..].
  destruct t1, t2; simpl in *; congruence.
Qed.

Lemma tag_is_unique_witness :
  Legacy.Build_instant 2025 1 2 3 4 5 6 = Legacy.Build_instant 2025 1 2 3 4 5 6.
Proof.
  apply tag_is_unique; [| |reflexivity];
    unfold in_range; simpl; repeat split; lia.
Defined.

(** * The first generation of the scripts *)

Lemma string_length_app s t :
  String.length (s +:+ t) = String.length s + String.length t.
Proof.
  induction s as [|a s IH]; [reflexivity|].
  change (String a s +:+ t) with (String a (s +:+ t)). simpl. now rewrite IH.
Qed.

Lemma backupName_fresh now c : Legacy.backupName now c <> c.
Proof.
  intros H. apply (f_equal String.length) in H.
  unfold Legacy.backupName in H. rewrite !string_length_app in H.
  simpl in H. lia.
Qed.

Lemma legacy_bind_Ok {A B} (m : Legacy.M A) (f : A -> Legacy.M B) st a st' :
  m st = (Ok a, st') -> @mbind Legacy.M Legacy.M_bind _ _ f m st = f a st'.
Proof. intros H. unfold mbind, Legacy.M_bind. now rewrite H. Qed.

Lemma legacy_bind_Throw {A B} (m : Legacy.M A) (f : A -> Legacy.M B) st e st' :
  m st = (Throw e, st') ->
  @mbind Legacy.M Legacy.M_bind _ _ f m st = (Throw e, st').
Proof. intros H. unfold mbind, Legacy.M_bind. now rewrite H. Qed.


(** ** The operations on many documents *)

Lemma insert_each_other c docs s c' k :
  (c' = c -> k ∉ docs.*1) ->
  (Legacy.insert_each c docs s).2 !! (c', k) = s !! (c', k).
Proof.
  revert s. induction docs as [|doc docs IH]; intros s Hk; [reflexivity|].
  simpl. destruct (s !! _); [reflexivity|].
  rewrite IH.
  - apply lookup_insert_ne. intros [= E1 E2]. apply (Hk (eq_sym E1)).
    rewrite <- E2. simpl. left.
  - intros Hc Hin. apply (Hk Hc). simpl. now right.
Qed.

Lemma insert_each_Ok c docs s :
  NoDup docs.*1 ->
  (Legacy.insert_each c docs s).1 = Ok tt ->
  forall k fs, (k, fs) ∈ docs ->
    (Legacy.insert_each c docs s).2 !! (c, k) = Some fs.
Proof.
  revert s. induction docs as [|doc docs IH]; intros s Hnd Hok k fs Hin.
  - inversion Hin.
  - simpl in Hnd. inversion Hnd as [|? ? Hnotin Hnd']; subst.
    simpl in *. destruct (s !! _); [discriminate|].
    apply elem_of_cons in Hin as [<-|Hin].
    + rewrite insert_each_other by (intros _; exact Hnotin).
      apply lookup_insert_eq.
    + now apply IH.
Qed.

Lemma insert_each_free c docs s :
  NoDup docs.*1 -> (forall k, k ∈ docs.*1 -> s !! (c, k) = None) ->
  (Legacy.insert_each c docs s).1 = Ok tt.
Proof.
  revert s. induction docs as [|doc docs IH]; intros s Hnd Hfree;
    [reflexivity|].
  simpl in Hnd. inversion Hnd as [|? ? Hnotin Hnd']; subst.
  simpl. rewrite (Hfree doc.1) by (simpl; left).
  apply IH; [exact Hnd'|]. intros k Hk.
  rewrite lookup_insert_ne.
  - apply Hfree. simpl. now right.
  - intros [= E]. apply Hnotin. now rewrite E.
Qed.

Lemma update_each_other (c : string) (u : Update)
    (docs : list (string * gmap string value))
    (s : gmap (string * string) (gmap string value)) c' k :
  (c' = c -> k ∉ docs.*1) ->
  fold_left (fun s d => <[(c, d.1) := apply_set u d.2]> s) docs s !! (c', k)
  = s !! (c', k).
Proof.
  revert s. induction docs as [|doc docs IH]; intros s Hk; [reflexivity|].
  simpl. rewrite IH.
  - apply lookup_insert_ne. intros [= E1 E2]. apply (Hk (eq_sym E1)).
    rewrite <- E2. simpl. left.
  - intros Hc Hin. apply (Hk Hc). simpl. now right.
Qed.

Lemma update_each_in (c : string) (u : Update)
    (docs : list (string * gmap string value))
    (s : gmap (string * string) (gmap string value)) k fs :
  NoDup docs.*1 -> (k, fs) ∈ docs ->
  fold_left (fun s d => <[(c, d.1) := apply_set u d.2]> s) docs s !! (c, k)
  = Some (apply_set u fs).
Proof.
  revert s. induction docs as [|doc docs IH]; intros s Hnd Hin.
  - inversion Hin.
  - simpl in Hnd. inversion Hnd as [|? ? Hnotin Hnd']; subst.
    simpl. apply elem_of_cons in Hin as [<-|Hin].
    + rewrite update_each_other by (intros _; exact Hnotin).
      apply lookup_insert_eq.
    + now apply IH.
Qed.

Lemma delete_each_other (c : string)
    (docs : list (string * gmap string value))
    (s : gmap (string * string) (gmap string value)) c' k :
  c' <> c ->
  fold_left (fun s (d : string * gmap string value) => base.delete (c, d.1) s)
    docs s !! (c', k)
  = s !! (c', k).
Proof.
  intros Hc. revert s. induction docs as [|doc docs IH]; intros s;
    [reflexivity|].
  simpl. rewrite IH. apply lookup_delete_ne. congruence.
Qed.

Lemma restore_each_other c docs s c' k :
  (c' = c -> k ∉ docs.*1) ->
  (Legacy.restore_each c docs s).2 !! (c', k) = s !! (c', k).
Proof.
  revert s. induction docs as [|doc docs IH]; intros s Hk; [reflexivity|].
  simpl. rewrite IH.
  - apply lookup_insert_ne. intros [= E1 E2]. apply (Hk (eq_sym E1)).
    rewrite <- E2. simpl. left.
  - intros Hc Hin. apply (Hk Hc). simpl. now right.
Qed.

Lemma restore_each_in c docs s k fs :
  NoDup docs.*1 -> (k, fs) ∈ docs ->
  (Legacy.restore_each c docs s).2 !! (c, k)
  = Some (fs ∪ default ∅ (s !! (c, k))).
Proof.
  revert s. induction docs as [|doc docs IH]; intros s Hnd Hin.
  - inversion Hin.
  - simpl in Hnd. inversion Hnd as [|? ? Hnotin Hnd']; subst.
    simpl. apply elem_of_cons in Hin as [<-|Hin].
    + rewrite restore_each_other by (intros _; exact Hnotin).
      apply lookup_insert_eq.
    + rewrite (IH _ Hnd' Hin). rewrite lookup_insert_ne; [reflexivity|].
      intros [= E]. apply Hnotin. rewrite E.
      apply list_elem_of_fmap. exists (k, fs). auto.
Qed.

Lemma found_all c s k fs :
  (k, fs) ∈ found c [] s <-> s !! (c, k) = Some fs.
Proof. rewrite elem_of_found. simpl. intuition. Qed.

(** ** Backup and restore *)

(** X12.  No update without a backup.  Outside dry run, when
    [updateDocuments] of the first generation ends normally, every
    document that matched the filter has taken the update and the
    backup collection of the run holds it under the same identifier
    with the fields it had before; documents that did not match are as
    they were.  When it throws (the store rejected a request, or the
    backup collection already had one of the identifiers), no document
    of the collection has been changed. *)
Theorem legacy_update_after_backup (now : Legacy.instant) (c : string)
    (q : Filter) (u : Update) (st : Legacy.state) :
  let r := Legacy.updateDocuments false now c q u st in
  let docs := found c q (Legacy.db st) in
  let b := Legacy.backupName now c in
  match r.1 with
  | Ok _ =>
      (forall k fs, (k, fs) ∈ docs ->
         Legacy.db r.2 !! (b, k) = Some fs
         /\ Legacy.db r.2 !! (c, k) = Some (apply_set u fs))
      /\ (forall k, k ∉ docs.*1 ->
            Legacy.db r.2 !! (c, k) = Legacy.db st !! (c, k))
  | Throw _ =>
      forall k, Legacy.db r.2 !! (c, k) = Legacy.db st !! (c, k)
  end.
Proof.
  destruct st as [s fs rch n ev]. cbv zeta.
  pose proof (backupName_fresh now c) as Hb.
  pose proof (found_NoDup c q s) as Hnd.
  assert (Hupd : forall s1 : gmap (string * string) (gmap string value),
             (forall k, s1 !! (c, k) = s !! (c, k)) ->
             (forall k fs0, (k, fs0) ∈ found c q s ->
                fold_left (fun s d => <[(c, d.1) := apply_set u d.2]> s)
                  (found c q s1) s1 !! (c, k) = Some (apply_set u fs0))
             /\ (forall k, k ∉ (found c q s).*1 ->
                   fold_left (fun s d => <[(c, d.1) := apply_set u d.2]> s)
                     (found c q s1) s1 !! (c, k) = s !! (c, k))
             /\ (forall k, fold_left (fun s d => <[(c, d.1) := apply_set u d.2]> s)
                   (found c q s1) s1 !! (Legacy.backupName now c, k)
                 = s1 !! (Legacy.backupName now c, k))).
  { intros s1 Hs1. split; [|split].
    - intros k fs0 Hin. apply update_each_in; [apply found_NoDup|].
      apply elem_of_found. rewrite Hs1. now apply elem_of_found.
    - intros k Hk. rewrite update_each_other; [apply Hs1|].
      intros _ Hin. apply Hk.
      apply list_elem_of_fmap in Hin as ([k' fs'] & -> & Hin).
      apply list_elem_of_fmap. exists (k', fs'). split; [reflexivity|].
      apply elem_of_found. rewrite <- Hs1. now apply elem_of_found.
    - intros k. apply update_each_other. intros E. now destruct Hb. }
  unfold Legacy.updateDocuments, Legacy.backupDocuments, Legacy.find,
    mbind, Legacy.M_bind. simpl.
  destruct (found c q s) as [|d ds] eqn:Hfound.
  - (* nothing matched: no backup is made *)
    unfold Legacy.updateMany, Legacy.request, mbind, Legacy.M_bind,
      Legacy.get_db. simpl.
    destruct fs as [|[e|] fs]; simpl; rewrite ?Hfound; simpl;
      try (intros k; reflexivity);
      (split; [intros k fs0 Hin; inversion Hin | intros k _; reflexivity]).
  - rewrite <- Hfound in *.
    unfold Legacy.insertMany, Legacy.request, mbind, Legacy.M_bind,
      Legacy.get_db. simpl.
    assert (Hins : forall k,
               (Legacy.insert_each (Legacy.backupName now c) (found c q s) s).2
                 !! (c, k) = s !! (c, k)).
    { intros k. apply insert_each_other. intros E. now destruct Hb. }
    pose proof (insert_each_Ok (Legacy.backupName now c) (found c q s) s Hnd)
      as Hok.
    destruct fs as [|[e|] fs]; simpl; try (intros k; reflexivity);
      destruct (Legacy.insert_each (Legacy.backupName now c) (found c q s) s)
        as [[[]|e'] s1]; simpl in *; try exact Hins;
      unfold Legacy.updateMany, Legacy.request, mbind, Legacy.M_bind,
        Legacy.get_db; simpl;
      destruct (Hupd s1 Hins) as (U1 & U2 & U3);
      try (destruct fs as [|[e|] fs]; simpl); try exact Hins;
      (split; [intros k fs0 Hin; split;
               [rewrite U3; now apply Hok | now apply U1]
              | exact U2]).
Qed.

(** The store after the two [deleteMany] of the undo script. *)
Lemma legacy_deletes_frame (p : gmap string value -> bool)
    (s : gmap (string * string) (gmap string value)) c' k :
  c' <> "x" -> c' <> "y" ->
  let s1 := fold_left (fun s (d : string * gmap string value) =>
                         base.delete ("x", d.1) s)
              (Legacy.docs_where "x" p s) s in
  let s2 := fold_left (fun s (d : string * gmap string value) =>
                         base.delete ("y", d.1) s)
              (Legacy.docs_where "y" p s1) s1 in
  s2 !! (c', k) = s !! (c', k).
Proof.
  intros Hx Hy s1 s2. subst s2.
  rewrite delete_each_other by exact Hy.
  subst s1. now rewrite delete_each_other by exact Hx.
Qed.

(** The undo of the first generation against a reachable store that
    serves every request. *)
Lemma legacy_undoMigration_served
    (created_since : string -> gmap string value -> bool)
    (tag : string) (st : Legacy.state) :
  Legacy.reachable st = true -> Legacy.faults st = [] ->
  exists st',
    Legacy.undoMigration created_since tag st = (Ok tt, st')
    /\ Legacy.faults st' = []
    /\ (forall k,
          Legacy.db st' !! ("z", k)
          = match Legacy.db st !! ("_backup_z_" +:+ tag, k) with
            | Some fs => Some (fs ∪ default ∅ (Legacy.db st !! ("z", k)))
            | None => Legacy.db st !! ("z", k)
            end)
    /\ (forall k, Legacy.db st' !! ("_backup_z_" +:+ tag, k)
                  = Legacy.db st !! ("_backup_z_" +:+ tag, k)).
Proof.
  intros Hr Hf. destruct st as [s fs rch n ev]. simpl in Hr, Hf. subst.
  assert (Hlen : forall c1 : string, String.length c1 = 1 ->
                   "_backup_z_" +:+ tag <> c1).
  { intros c1 Hc1 E. apply (f_equal String.length) in E.
    rewrite string_length_app, Hc1 in E. simpl in E. lia. }
  unfold Legacy.undoMigration, Legacy.connect, Legacy.deleteMany,
    Legacy.request, Legacy.find, Legacy.get_db, mbind, Legacy.M_bind. simpl.
  set (p := created_since (Legacy.undo_since tag)).
  set (s1 := fold_left _ (Legacy.docs_where "x" p s) s).
  set (s2 := fold_left _ (Legacy.docs_where "y" p s1) s1).
  assert (Hfr : forall c' k, c' <> "x" -> c' <> "y" ->
                  s2 !! (c', k) = s !! (c', k)).
  { intros c' k Hx Hy. apply (legacy_deletes_frame p s c' k Hx Hy). }
  assert (Hz : forall k, s2 !! ("z", k) = s !! ("z", k))
    by (intros k; apply Hfr; discriminate).
  assert (Hbk : forall k, s2 !! ("_backup_z_" +:+ tag, k)
                          = s !! ("_backup_z_" +:+ tag, k))
    by (intros k; apply Hfr; apply Hlen; reflexivity).
  pose proof (found_NoDup ("_backup_z_" +:+ tag) [] s2) as Hnd.
  pose proof (found_all ("_backup_z_" +:+ tag) s2) as Hall.
  destruct (found ("_backup_z_" +:+ tag) [] s2) as [|d ds] eqn:Hfound.
  - simpl. eexists. split; [reflexivity|]. simpl.
    split; [reflexivity|]. split; [|exact Hbk].
    intros k. rewrite Hz, <- Hbk.
    destruct (s2 !! ("_backup_z_" +:+ tag, k)) as [fs0|] eqn:E; [|reflexivity].
    apply Hall in E. inversion E.
  - unfold Legacy.bulkWrite, Legacy.request, Legacy.get_db, mbind,
      Legacy.M_bind. cbn -[Legacy.restore_each].
    rewrite <- Hfound in *.
    eexists. split; [reflexivity|]. cbn -[Legacy.restore_each].
    split; [reflexivity|]. split.
    + intros k. rewrite <- Hbk.
      destruct (s2 !! ("_backup_z_" +:+ tag, k)) as [fs0|] eqn:E.
      * apply Hall in E. rewrite (restore_each_in _ _ _ _ _ Hnd E).
        now rewrite Hz.
      * rewrite restore_each_other; [apply Hz|].
        intros _ Hin. apply list_elem_of_fmap in Hin as ([k' fs'] & -> & Hin).
        apply Hall in Hin. simpl in E. congruence.
    + intros k. rewrite restore_each_other; [apply Hbk|].
      intros E. exfalso. exact (Hlen "z" eq_refl E).
Qed.

Lemma legacy_undo_js_Ok
    (created_since : string -> gmap string value -> bool)
    (tag : string) (st st' : Legacy.state) :
  tag <> "" ->
  Legacy.undoMigration created_since tag st = (Ok tt, st') ->
  Legacy.undo_js created_since (Some tag) st = (0, st').
Proof.
  intros Ht E. unfold Legacy.undo_js. simpl.
  rewrite bool_decide_eq_false_2 by exact Ht. simpl. now rewrite E.
Qed.

(** X13.  What the undo script of the first generation does to [z],
    with a reachable store that serves every request: a document whose
    identifier is in the backup collection of the tag takes every field
    of its backup and keeps the fields it has that the backup lacks (it
    is created from the backup when it is missing); every other
    document of [z] is as it was.  So the restore is a patch: fields an
    update added are not removed.  The backup collection itself is kept
    as it is, and the script ends with code 0, also when there is no
    backup for the tag. *)
Theorem legacy_restore_patches
    (created_since : string -> gmap string value -> bool)
    (tag : string) (st : Legacy.state) :
  tag <> "" -> Legacy.reachable st = true -> Legacy.faults st = [] ->
  let r := Legacy.undo_js created_since (Some tag) st in
  let b := "_backup_z_" +:+ tag in
  r.1 = 0
  /\ (forall k,
        Legacy.db r.2 !! ("z", k)
        = match Legacy.db st !! (b, k) with
          | Some fs => Some (fs ∪ default ∅ (Legacy.db st !! ("z", k)))
          | None => Legacy.db st !! ("z", k)
          end)
  /\ (forall k, Legacy.db r.2 !! (b, k) = Legacy.db st !! (b, k)).
Proof.
  intros Ht Hr Hf. cbv zeta.
  destruct (legacy_undoMigration_served created_since tag st Hr Hf)
    as (st' & E & _ & Hz & Hb).
  rewrite (legacy_undo_js_Ok _ _ _ _ Ht E).
  split; [reflexivity|]. split; [exact Hz | exact Hb].
Qed.

Lemma legacy_restore_patches_witness :
  (Legacy.undo_js never_since (Some "T1") legacy_after).1 = 0
  /\ Legacy.db (Legacy.undo_js never_since (Some "T1") legacy_after).2
       !! ("z", oid_a)
     = Some {[ "status" := VStr "old"; "updatedAt" := VDate "T1" ]}.
Proof.
  pose proof (legacy_restore_patches never_since "T1" legacy_after
                ltac:(discriminate) eq_refl eq_refl) as H.
  cbv zeta in H. destruct H as (H0 & Hz & _).
  split; [exact H0|]. rewrite Hz.
  apply (bool_decide_unpack _). vm_compute. exact I.
Defined.

(** ** An update and its undo *)

Lemma TAG_nonempty now : Legacy.TAG now <> "".
Proof.
  intros E. apply (f_equal String.length) in E.
  rewrite TAG_form, pad_length in E.
  change (String.length "") with 0 in E. lia.
Qed.

Lemma apply_set_notin (u : Update) (fs : gmap string value) i :
  (forall v, (i, v) ∉ u) -> apply_set u fs !! i = fs !! i.
Proof.
  unfold apply_set. revert fs.
  induction u as [|[f v] u IH]; intros fs Hi; [reflexivity|].
  simpl. rewrite IH.
  - apply lookup_insert_ne. intros ->. apply (Hi v). left.
  - intros v' Hin. apply (Hi v'). now right.
Qed.

(** An update that sets only fields the document has adds nothing to
    it. *)
Lemma union_apply_set (u : Update) (fs : gmap string value) :
  (forall f v, (f, v) ∈ u -> is_Some (fs !! f)) -> fs ∪ apply_set u fs = fs.
Proof.
  intros Hu. apply map_eq. intros i. rewrite lookup_union.
  destruct (fs !! i) as [x|] eqn:E.
  - now destruct (apply_set u fs !! i).
  - rewrite apply_set_notin, E; [reflexivity|].
    intros v Hin. destruct (Hu i v Hin) as [y Hy]. congruence.
Qed.

(** [updateDocuments] of the first generation against a store that
    serves every request and has no backup collection for the run. *)
Lemma legacy_updateDocuments_served (now : Legacy.instant) (c : string)
    (q : Filter) (u : Update) (st : Legacy.state) :
  Legacy.faults st = [] ->
  (forall k, Legacy.db st !! (Legacy.backupName now c, k) = None) ->
  exists st',
    Legacy.updateDocuments false now c q u st = (Ok tt, st')
    /\ Legacy.faults st' = []
    /\ Legacy.reachable st' = Legacy.reachable st
    /\ (forall k fs, (k, fs) ∈ found c q (Legacy.db st) ->
          Legacy.db st' !! (Legacy.backupName now c, k) = Some fs
          /\ Legacy.db st' !! (c, k) = Some (apply_set u fs))
    /\ (forall k, k ∉ (found c q (Legacy.db st)).*1 ->
          Legacy.db st' !! (Legacy.backupName now c, k) = None
          /\ Legacy.db st' !! (c, k) = Legacy.db st !! (c, k)).
Proof.
  intros Hf Hfree. destruct st as [s fs rch n ev]. simpl in Hf, Hfree. subst.
  pose proof (backupName_fresh now c) as Hb.
  pose proof (found_NoDup c q s) as Hnd.
  unfold Legacy.updateDocuments, Legacy.backupDocuments, Legacy.find,
    mbind, Legacy.M_bind. simpl.
  destruct (found c q s) as [|d ds] eqn:Hfound.
  - unfold Legacy.updateMany, Legacy.request, mbind, Legacy.M_bind,
      Legacy.get_db. simpl. rewrite Hfound. simpl.
    eexists. split; [reflexivity|]. simpl.
    split; [reflexivity|]. split; [reflexivity|]. split.
    + intros k fs0 Hin. inversion Hin.
    + intros k _. split; [apply Hfree | reflexivity].
  - rewrite <- Hfound in *.
    unfold Legacy.insertMany, Legacy.request, mbind, Legacy.M_bind,
      Legacy.get_db. simpl.
    pose proof (insert_each_free (Legacy.backupName now c) (found c q s) s Hnd
                  (fun k _ => Hfree k)) as Hok1.
    pose proof (insert_each_Ok (Legacy.backupName now c) (found c q s) s Hnd)
      as Hok.
    assert (Hins : forall k,
               (Legacy.insert_each (Legacy.backupName now c) (found c q s) s).2
                 !! (c, k) = s !! (c, k)).
    { intros k. apply insert_each_other. intros E. now destruct Hb. }
    assert (Hinb : forall k, k ∉ (found c q s).*1 ->
               (Legacy.insert_each (Legacy.backupName now c) (found c q s) s).2
                 !! (Legacy.backupName now c, k) = None).
    { intros k Hk. rewrite insert_each_other; [apply Hfree|]. now intros _. }
    destruct (Legacy.insert_each (Legacy.backupName now c) (found c q s) s)
      as [[[]|e'] s1]; simpl in *; [|discriminate].
    unfold Legacy.updateMany, Legacy.request, mbind, Legacy.M_bind,
      Legacy.get_db; simpl.
    eexists. split; [reflexivity|]. simpl.
    split; [reflexivity|]. split; [reflexivity|]. split.
    + intros k fs0 Hin. split.
      * rewrite update_each_other by (intros E; now destruct Hb).
        now apply Hok.
      * apply update_each_in; [apply found_NoDup|].
        apply elem_of_found. rewrite Hins. now apply elem_of_found.
    + intros k Hk. split.
      * rewrite update_each_other by (intros E; now destruct Hb).
        now apply Hinb.
      * rewrite update_each_other; [apply Hins|].
        intros _ Hin. apply Hk.
        apply list_elem_of_fmap in Hin as ([k' fs'] & -> & Hin).
        apply list_elem_of_fmap. exists (k', fs'). split; [reflexivity|].
        apply elem_of_found. rewrite <- Hins. now apply elem_of_found.
Qed.

(** X14.  An update of the first generation and its undo.  With a
    reachable store that serves every request and holds no backup
    collection for the run yet, [updateDocuments] on [z] outside dry run
    followed by the undo script for the tag of the run ends with code 0
    and leaves every document of [z] that did not match the filter as it
    was.  A document that matched has all the values it had before, and
    on top of them the fields the update added that it did not have: the
    undo writes the backup over the document and removes nothing.  So a
    document is exactly as before when the update set only fields it
    already had. *)
Theorem legacy_update_then_undo
    (created_since : string -> gmap string value -> bool)
    (now : Legacy.instant) (q : Filter) (u : Update) (st : Legacy.state) :
  Legacy.reachable st = true -> Legacy.faults st = [] ->
  (forall k, Legacy.db st !! (Legacy.backupName now "z", k) = None) ->
  let st1 := (Legacy.updateDocuments false now "z" q u st).2 in
  let r := Legacy.undo_js created_since (Some (Legacy.TAG now)) st1 in
  r.1 = 0
  /\ (forall k, Legacy.db r.2 !! ("z", k)
                = restored q u <$> Legacy.db st !! ("z", k))
  /\ (forall k fs, Legacy.db st !! ("z", k) = Some fs ->
        (forall f v, (f, v) ∈ u -> is_Some (fs !! f)) ->
        Legacy.db r.2 !! ("z", k) = Some fs).
Proof.
  intros Hr Hf Hfree. cbv zeta.
  destruct (legacy_updateDocuments_served now "z" q u st Hf Hfree)
    as (st1 & E1 & Hf1 & Hr1 & Hin & Hout).
  rewrite E1. change ((Ok tt, st1).2) with st1.
  rewrite Hr in Hr1.
  destruct (legacy_undoMigration_served created_since (Legacy.TAG now) st1
              Hr1 Hf1) as (st2 & E2 & _ & Hz & _).
  change ("_backup_z_" +:+ Legacy.TAG now) with (Legacy.backupName now "z")
    in Hz.
  rewrite (legacy_undo_js_Ok _ _ _ _ (TAG_nonempty now) E2).
  change ((0, st2).1) with 0. change ((0, st2).2) with st2.
  assert (Hall : forall k, Legacy.db st2 !! ("z", k)
                           = restored q u <$> Legacy.db st !! ("z", k)).
  { intros k. rewrite Hz. unfold restored.
    destruct (Legacy.db st !! ("z", k)) as [fs|] eqn:El; simpl.
    - destruct (matches q fs) eqn:Em.
      + destruct (Hin k fs) as [Hb Hc]; [now apply elem_of_found|].
        now rewrite Hb, Hc.
      + destruct (Hout k) as [Hb Hc].
        { intros Hk. apply list_elem_of_fmap in Hk as ([k' fs'] & -> & Hk).
          apply elem_of_found in Hk as [Hl Hm]. simpl in El. congruence. }
        now rewrite Hb, Hc.
    - destruct (Hout k) as [Hb Hc].
      { intros Hk. apply list_elem_of_fmap in Hk as ([k' fs'] & -> & Hk).
        apply elem_of_found in Hk as [Hl Hm]. simpl in El. congruence. }
      now rewrite Hb, Hc. }
  split; [reflexivity|]. split; [exact Hall|].
  intros k fs El Hu. rewrite Hall, El. simpl. unfold restored.
  destruct (matches q fs); [|reflexivity].
  now rewrite union_apply_set.
Qed.

Lemma legacy_update_then_undo_witness :
  let st1 := (Legacy.updateDocuments false noon "z"
                [("status", VStr "old")] [("status", VStr "new")] legacy_z).2 in
  let r := Legacy.undo_js never_since (Some (Legacy.TAG noon)) st1 in
  r.1 = 0 /\ Legacy.db r.2 !! ("z", oid_a) = Some {[ "status" := VStr "old" ]}.
Proof.
  assert (Hfree : forall k,
             Legacy.db legacy_z !! (Legacy.backupName noon "z", k) = None).
  { intros k. change (Legacy.db legacy_z) with store_z. unfold store_z.
    apply lookup_singleton_ne. intros E. apply (f_equal fst) in E.
    vm_compute in E. discriminate E. }
  pose proof (legacy_update_then_undo never_since noon
                [("status", VStr "old")] [("status", VStr "new")] legacy_z
                eq_refl eq_refl Hfree) as H.
  cbv zeta in H. cbv zeta.
  destruct H as (H0 & _ & H1).
  split; [exact H0|]. apply H1.
  - apply (bool_decide_unpack _). vm_compute. exact I.
  - intros f v Hin. apply list_elem_of_singleton in Hin as [= -> ->].
    exists (VStr "old"). apply (bool_decide_unpack _). vm_compute. exact I.
Defined.

(** ** Failure in the first generation *)

Lemma keeps_open_silent {A} (m : Legacy.M A) :
  (forall st, Legacy.events (m st).2 = Legacy.events st) -> keeps_open m.
Proof.
  intros H st. exists []. rewrite H, app_nil_r. split; [reflexivity|].
  apply not_elem_of_nil.
Qed.

Lemma keeps_open_emit (e : Legacy.event) :
  e <> Legacy.Close -> keeps_open (Legacy.emit e).
Proof.
  intros He st. exists [e]. split; [reflexivity|].
  intros Hin. apply list_elem_of_singleton in Hin. congruence.
Qed.

Lemma keeps_open_bind {A B} (m : Legacy.M A) (f : A -> Legacy.M B) :
  keeps_open m -> (forall a, keeps_open (f a)) ->
  keeps_open (@mbind Legacy.M Legacy.M_bind _ _ f m).
Proof.
  intros Hm Hf st. unfold mbind, Legacy.M_bind.
  destruct (Hm st) as (evs & E & Hc).
  destruct (m st) as [[a|e] st1]; simpl in E.
  - destruct (Hf a st1) as (evs' & E' & Hc'). exists (evs ++ evs').
    rewrite E', E, app_assoc. split; [reflexivity|].
    rewrite elem_of_app. tauto.
  - exists evs. split; [exact E | exact Hc].
Qed.

Lemma closes_on_success_bind {A B} l (m : Legacy.M A) (f : A -> Legacy.M B) :
  keeps_open m -> (forall a, closes_on_success l (f a)) ->
  closes_on_success l (@mbind Legacy.M Legacy.M_bind _ _ f m).
Proof.
  intros Hm Hf st. unfold mbind, Legacy.M_bind.
  destruct (Hm st) as (evs & E & Hc).
  destruct (m st) as [[a|e] st1]; simpl in E.
  - destruct (Hf a st1) as (evs' & E' & H'). exists (evs ++ evs').
    rewrite E', E, app_assoc. split; [reflexivity|].
    destruct ((f a st1).1).
    + destruct H' as [Hin Hl]. split; [apply elem_of_app; now right|].
      rewrite last_app, Hl. reflexivity.
    + rewrite elem_of_app. tauto.
  - exists evs. split; [exact E | exact Hc].
Qed.

Lemma closes_at_the_end l :
  closes_on_success l
    (@mbind Legacy.M Legacy.M_bind _ _
       (fun _ => Legacy.emit (Legacy.Info l)) Legacy.close).
Proof.
  intros st. exists [Legacy.Close; Legacy.Info l]. split.
  - simpl. now rewrite <- app_assoc.
  - simpl. split; [left | reflexivity].
Qed.

Lemma legacy_request_silent st :
  Legacy.events (Legacy.request st).2 = Legacy.events st.
Proof.
  unfold Legacy.request. destruct (Legacy.faults st) as [|[e|] fs]; reflexivity.
Qed.

Lemma keeps_open_request : keeps_open Legacy.request.
Proof. apply keeps_open_silent, legacy_request_silent. Qed.

Lemma keeps_open_ret {A} (a : A) : keeps_open (@mret Legacy.M Legacy.M_ret _ a).
Proof. now apply keeps_open_silent. Qed.

Lemma keeps_open_throw {A} e : keeps_open (@Legacy.throw A e).
Proof. now apply keeps_open_silent. Qed.

Lemma keeps_open_set_db f : keeps_open (Legacy.set_db f).
Proof. now apply keeps_open_silent. Qed.

Lemma keeps_open_get_db : keeps_open Legacy.get_db.
Proof. now apply keeps_open_silent. Qed.

Lemma keeps_open_find c q : keeps_open (Legacy.find c q).
Proof. now apply keeps_open_silent. Qed.

Lemma keeps_open_gen_oid : keeps_open Legacy.gen_oid.
Proof. now apply keeps_open_silent. Qed.

Lemma keeps_open_connect : keeps_open Legacy.connect.
Proof.
  intros st. unfold Legacy.connect. destruct (Legacy.reachable st).
  - now apply keeps_open_emit.
  - now apply keeps_open_throw.
Qed.

Create HintDb open.

#[local] Hint Resolve keeps_open_request keeps_open_ret keeps_open_throw
  keeps_open_set_db keeps_open_get_db keeps_open_find keeps_open_gen_oid
  keeps_open_connect : open.

Ltac keeps_open_steps :=
  repeat first
    [ solve [auto with open]
    | apply keeps_open_emit; discriminate
    | apply keeps_open_bind; [|intros ?] ].

Lemma keeps_open_insertOne c d : keeps_open (Legacy.insertOne c d).
Proof.
  unfold Legacy.insertOne. keeps_open_steps.
  destruct (_ !! _); keeps_open_steps.
Qed.

Lemma keeps_open_insertMany c docs : keeps_open (Legacy.insertMany c docs).
Proof.
  unfold Legacy.insertMany. keeps_open_steps.
  destruct (Legacy.insert_each _ _ _) as [[[]|e] s']; keeps_open_steps.
Qed.

Lemma keeps_open_updateMany c q u : keeps_open (Legacy.updateMany c q u).
Proof. unfold Legacy.updateMany. keeps_open_steps. Qed.

Lemma keeps_open_deleteMany c p : keeps_open (Legacy.deleteMany c p).
Proof. unfold Legacy.deleteMany. keeps_open_steps. Qed.

Lemma keeps_open_bulkWrite c docs : keeps_open (Legacy.bulkWrite c docs).
Proof. unfold Legacy.bulkWrite. keeps_open_steps. Qed.

Lemma keeps_open_for_each {A} (l : list A) (body : A -> Legacy.M unit) :
  (forall x, keeps_open (body x)) -> keeps_open (Legacy.for_each l body).
Proof.
  intros Hb. induction l as [|x l IH]; simpl.
  - apply keeps_open_ret.
  - apply keeps_open_bind; [apply Hb | intros _; exact IH].
Qed.

#[local] Hint Resolve keeps_open_insertOne keeps_open_insertMany
  keeps_open_updateMany keeps_open_deleteMany keeps_open_bulkWrite : open.

Lemma keeps_open_insertDocument dryRun c d :
  keeps_open (Legacy.insertDocument dryRun c d).
Proof.
  unfold Legacy.insertDocument. destruct dryRun; cbv iota; keeps_open_steps.
Qed.

Lemma keeps_open_updateDocuments dryRun now c q u :
  keeps_open (Legacy.updateDocuments dryRun now c q u).
Proof.
  unfold Legacy.updateDocuments, Legacy.backupDocuments.
  destruct dryRun; cbv iota; keeps_open_steps.
  match goal with |- keeps_open (match ?l with _ => _ end) => destruct l end;
    keeps_open_steps.
Qed.

(** Where the two scripts close the connection. *)
Lemma runMigration_closes dryRun now :
  closes_on_success Legacy.Migration_complete
    (Legacy.runMigration dryRun now).
Proof.
  unfold Legacy.runMigration.
  repeat (apply closes_on_success_bind;
          [first [ apply keeps_open_connect
                 | apply keeps_open_emit; discriminate
                 | apply keeps_open_insertDocument
                 | apply keeps_open_updateDocuments ]
          | intros _ ]).
  apply closes_at_the_end.
Qed.

Lemma undoMigration_closes created_since tag :
  closes_on_success Legacy.Undo_complete
    (Legacy.undoMigration created_since tag).
Proof.
  unfold Legacy.undoMigration.
  apply closes_on_success_bind; [apply keeps_open_connect | intros _].
  apply closes_on_success_bind;
    [apply keeps_open_emit; discriminate | intros _].
  apply closes_on_success_bind.
  { apply keeps_open_for_each. intros col. keeps_open_steps. }
  intros _.
  apply closes_on_success_bind; [apply keeps_open_find | intros docs].
  apply closes_on_success_bind; [destruct docs; keeps_open_steps | intros _].
  apply closes_at_the_end.
Qed.

(** X15.  The migration script of the first generation, in either mode
    and whatever the store answers, ends in one of two ways.  With code
    0: the connection has been closed and the last line logged is
    Migration complete.  With code 1: the last line logged is the error
    line Migration failed with the error, and the connection has not
    been closed, since the script closes it on the normal path only. *)
Theorem legacy_failure_leaves_connection_open (dryRun : bool)
    (now : Legacy.instant) (st : Legacy.state) :
  let r := Legacy.migration_js dryRun now st in
  exists evs,
    Legacy.events r.2 = Legacy.events st ++ evs
    /\ ((r.1 = 0 /\ (Legacy.Close ∈ evs)
         /\ last evs = Some (Legacy.Info Legacy.Migration_complete))
        \/ (r.1 = 1 /\ (Legacy.Close ∉ evs)
            /\ exists err,
                 last evs = Some (Legacy.Error (Legacy.Migration_failed err)))).
Proof.
  cbv zeta. unfold Legacy.migration_js.
  destruct (runMigration_closes dryRun now st) as (evs & E & H).
  destruct (Legacy.runMigration dryRun now st) as [[[]|err] st1];
    simpl in E, H |- *.
  - exists evs. split; [exact E|]. left. tauto.
  - exists (evs ++ [Legacy.Error (Legacy.Migration_failed err)]).
    rewrite E, app_assoc. split; [reflexivity|]. right.
    split; [reflexivity|]. split.
    + rewrite elem_of_app, list_elem_of_singleton. intros [Hin|Hin];
        [now apply H | discriminate].
    + exists err. now rewrite last_snoc.
Qed.

(** X16.  The same holds of the undo script of the first generation,
    for any argument: with code 0 the connection has been closed and the
    last line is Undo complete; with code 1 the connection has not been
    closed, and the last thing written is the usage message when the
    tag is missing, which comes before any connection, and the error
    line Undo failed otherwise. *)
Theorem legacy_undo_leaves_connection_open
    (created_since : string -> gmap string value -> bool)
    (TAG_UNDO : option string) (st : Legacy.state) :
  let r := Legacy.undo_js created_since TAG_UNDO st in
  exists evs,
    Legacy.events r.2 = Legacy.events st ++ evs
    /\ ((r.1 = 0 /\ (Legacy.Close ∈ evs)
         /\ last evs = Some (Legacy.Info Legacy.Undo_complete))
        \/ (r.1 = 1 /\ (Legacy.Close ∉ evs)
            /\ if truthy TAG_UNDO
               then exists err,
                      last evs = Some (Legacy.Error (Legacy.Undo_failed err))
               else evs = [Legacy.Stderr
                             "Please provide a tag to undo. Usage: node undo.js <TAG>"])).
Proof.
  cbv zeta. unfold Legacy.undo_js.
  destruct (truthy TAG_UNDO); simpl.
  - destruct (undoMigration_closes created_since (String_of TAG_UNDO) st)
      as (evs & E & H).
    destruct (Legacy.undoMigration created_since (String_of TAG_UNDO) st)
      as [[[]|err] st1]; simpl in E, H |- *.
    + exists evs. split; [exact E|]. left. tauto.
    + exists (evs ++ [Legacy.Error (Legacy.Undo_failed err)]).
      rewrite E, app_assoc. split; [reflexivity|]. right.
      split; [reflexivity|]. split.
      * rewrite elem_of_app, list_elem_of_singleton. intros [Hin|Hin];
          [now apply H | discriminate].
      * exists err. now rewrite last_snoc.
  - eexists. split; [reflexivity|]. right.
    split; [reflexivity|]. split; [|reflexivity].
    intros Hin. apply list_elem_of_singleton in Hin. discriminate.
Qed.
